(** * The SQL validator of fonz/spectacles: selector parsing, hierarchy
    building and the validation pass, embedded from
    [fonz/validators.py] and [spectacles/runner.py]. *)

From Stdlib Require Import ZArith Lia Ascii String.
From stdpp Require Import base option list gmap sets strings.

#[local] Set Warnings "-register-all,-clear-no-such-hyp".

(** ** Python values and exceptions *)

(** The values that travel through the validator untyped: the decoded JSON
    of an API result, and the [batch] argument of [validate] (a [bool] by
    annotation, a [str] when [Runner.validate_sql] calls it).  Numbers are
    integers.  A dict is kept as an association list, looked up at the
    first matching key. *)
Inductive pyobj : Type :=
| PyNone
| PyBool (b : bool)
| PyInt (n : Z)
| PyStr (s : string)
| PyList (items : list pyobj)
| PyDict (entries : list (string * pyobj)).

(** The exceptions the validator can leave with.  [FonzException] is the
    only class the package raises itself; the others are the built-in
    errors of the operations it uses, and [TransportError] stands for
    whatever the HTTP session raises. *)
Inductive exn : Type :=
| FonzException (msg : string)
| ValueError
| KeyError
| IndexError
| TypeError
| AttributeError
| TransportError (msg : string).

(** A computation that returns or raises. *)
Definition outcome (A : Type) : Type := exn + A.

Definition ok {A} (a : A) : outcome A := inr a.
Definition raise {A} (e : exn) : outcome A := inl e.

Definition rbind {A B} (c : outcome A) (k : A → outcome B) : outcome B :=
  match c with
  | inl e => inl e
  | inr a => k a
  end.

Declare Scope outcome_scope.
Delimit Scope outcome_scope with outcome.
Notation "'try!' x ':=' c 'in' k" := (rbind c (λ x, k))
  (at level 10, x name, c at level 100, k at level 200) : outcome_scope.
Local Open Scope outcome_scope.

(** Truth value of an object, as [if obj:] and [obj.get(k)] tests use it. *)
Definition truthy (v : pyobj) : bool :=
  match v with
  | PyNone => false
  | PyBool b => b
  | PyInt n => negb (n =? 0)%Z
  | PyStr s => negb (String.eqb s EmptyString)
  | PyList l => match l with [] => false | _ => true end
  | PyDict d => match d with [] => false | _ => true end
  end.

(** [d.get(key)]: the value at [key], [None] when it is absent. *)
Fixpoint dict_get (key : string) (d : list (string * pyobj)) : option pyobj :=
  match d with
  | [] => None
  | (k, v) :: d' => if String.eqb k key then Some v else dict_get key d'
  end.

(** [obj.get(key)]: only a dict has the method. *)
Definition py_get (obj : pyobj) (key : string) : outcome pyobj :=
  match obj with
  | PyDict d => ok (default PyNone (dict_get key d))
  | _ => raise AttributeError
  end.

(** [obj[key]] with a string key: only a dict can be indexed so. *)
Definition getitem (obj : pyobj) (key : string) : outcome pyobj :=
  match obj with
  | PyDict d => match dict_get key d with
                | Some v => ok v
                | None => raise KeyError
                end
  | _ => raise TypeError
  end.

(** [obj[0]]. *)
Definition getitem0 (obj : pyobj) : outcome pyobj :=
  match obj with
  | PyList l => match l with
                | x :: _ => ok x
                | [] => raise IndexError
                end
  | PyStr s => match s with
               | String c _ => ok (PyStr (String c EmptyString))
               | EmptyString => raise IndexError
               end
  | PyDict _ => raise KeyError
  | _ => raise TypeError
  end.

(** [obj - 1]. *)
Definition minus_one (obj : pyobj) : outcome Z :=
  match obj with
  | PyInt n => ok (n - 1)%Z
  | PyBool b => ok (Z.b2z b - 1)%Z
  | _ => raise TypeError
  end.

(** ** Strings *)

Definition dot : Ascii.ascii := "."%char.
Definition star : string := "*".
Definition newline : string := String (Ascii.ascii_of_nat 10) EmptyString.

(** [s.split(sep)] for a one-character separator: the pieces between the
    separators, one more than there are separators. *)
Fixpoint split (sep : Ascii.ascii) (s : string) : list string :=
  match s with
  | EmptyString => [EmptyString]
  | String c s' =>
      if Ascii.eqb c sep then EmptyString :: split sep s'
      else match split sep s' with
           | w :: ws => String c w :: ws
           | [] => [String c EmptyString]
           end
  end.

(** The number of occurrences of [sep] in [s]. *)
Fixpoint count_sep (sep : Ascii.ascii) (s : string) : nat :=
  match s with
  | EmptyString => 0
  | String c s' => (if Ascii.eqb c sep then 1 else 0) + count_sep sep s'
  end.

(** [sep.join(items)]. *)
Fixpoint join (sep : string) (items : list string) : string :=
  match items with
  | [] => EmptyString
  | [x] => x
  | x :: rest => x +:+ sep +:+ join sep rest
  end.

(** ** The LookML hierarchy and its errors *)

(** Modelled from the spec: the class [SqlError] of [fonz.exceptions],
    which is not among the sources.  It keeps what the call sites pass:
    [path], the [sql], [line_number] and [message] extracted from the API
    result, and an optional [url]. *)
Module SqlError.
Record t : Type := mk {
  path : string;
  sql : pyobj;
  line_number : option Z;
  message : pyobj;
  url : option string
}.
End SqlError.

(** Modelled from the spec: the class [Dimension] of [fonz.lookml], which is
    not among the sources: a name, a URL, the [ignore] flag, the [errored]
    flag and an optional [error]; [from_json] builds it from one entry of
    the dimension listing, with nothing failed yet. *)
Module Dimension.
Record json : Type := mk_json {
  json_name : string;
  json_url : string;
  json_ignore : bool
}.
Record t : Type := mk {
  name : string;
  url : string;
  ignore : bool;
  errored : bool;
  error : option SqlError.t
}.
Definition from_json (j : json) : t :=
  mk (json_name j) (json_url j) (json_ignore j) false None.
Definition set_url (u : string) (d : t) : t :=
  mk (name d) u (ignore d) (errored d) (error d).
Definition set_error (e : SqlError.t) (d : t) : t :=
  mk (name d) (url d) (ignore d) (errored d) (Some e).
Definition set_errored (b : bool) (d : t) : t :=
  mk (name d) (url d) (ignore d) b (error d).
End Dimension.

(** Modelled from the spec: the class [Explore] of [fonz.lookml], which is
    not among the sources: a name, the dimensions in listing order, the
    [errored] flag and an optional [error]; [add_dimension] appends. *)
Module Explore.
Record json : Type := mk_json { json_name : string }.
Record t : Type := mk {
  name : string;
  dimensions : list Dimension.t;
  errored : bool;
  error : option SqlError.t
}.
Definition from_json (j : json) : t := mk (json_name j) [] false None.
Definition add_dimension (d : Dimension.t) (e : t) : t :=
  mk (name e) (dimensions e ++ [d]) (errored e) (error e).
Definition set_dimensions (ds : list Dimension.t) (e : t) : t :=
  mk (name e) ds (errored e) (error e).
Definition set_error (err : SqlError.t) (e : t) : t :=
  mk (name e) (dimensions e) (errored e) (Some err).
Definition set_errored (b : bool) (e : t) : t :=
  mk (name e) (dimensions e) b (error e).
End Explore.

(** Modelled from the spec: the class [Model] of [fonz.lookml], which is not
    among the sources: a name, the name of its project, its explores and
    the [errored] flag. *)
Module Model.
Record json : Type := mk_json {
  json_name : string;
  json_project : string;
  json_explores : list Explore.json
}.
Record t : Type := mk {
  name : string;
  project : string;
  explores : list Explore.t;
  errored : bool
}.
Definition from_json (j : json) : t :=
  mk (json_name j) (json_project j) (Explore.from_json <$> json_explores j) false.
Definition set_explores (es : list Explore.t) (m : t) : t :=
  mk (name m) (project m) es (errored m).
Definition set_errored (b : bool) (m : t) : t :=
  mk (name m) (project m) (explores m) b.
End Model.

(** What [_select] reads of the objects it chooses from: [each.name] and
    [each.__class__.__name__]. *)
Class Named (A : Type) : Type := {
  name_of : A → string;
  class_name : string
}.
Arguments class_name A {_}.

#[export] Instance model_named : Named Model.t :=
  {| name_of := Model.name; class_name := "Model" |}.
#[export] Instance explore_named : Named Explore.t :=
  {| name_of := Explore.name; class_name := "Explore" |}.

(** Modelled from the spec: the client of [fonz.client], which is not among
    the sources, reduced to what the validator asks of it: the base URL,
    the model listing, the dimension listing of an explore, and the result
    of running one query (create, run, fetch), which is the decoded API
    result or an exception of the session. *)
Record LookerClient : Type := {
  base_url : string;
  get_models : list Model.json;
  get_dimensions : string → string → list Dimension.json;
  query_result : string → string → list string → outcome pyobj
}.

(** ** Selector parsing *)

Module SqlValidator.

(** A selection: model name to set of explore names. *)
Abbreviation Selection := (gmap string (gset string)).

(** [selection[model]] on a [defaultdict(set)]. *)
Definition sel_get (selection : Selection) (model : string) : gset string :=
  default ∅ (selection !! model).

Definition selector_error (selector : string) : exn :=
  FonzException
    ("Explore selector '" +:+ selector +:+ "' is not valid." +:+ newline +:+
     "Instead, use the format 'model_name.explore_name'. " +:+
     "Use 'model_name.*' to select all explores in a model.").

(** [model, explore = selector.split(".")]: the unpacking raises
    [ValueError] unless there are exactly two pieces. *)
Definition unpack2 (pieces : list string) : outcome (string * string) :=
  match pieces with
  | [model; explore] => ok (model, explore)
  | _ => raise ValueError
  end.

Fixpoint parse_selectors_from (selection : Selection) (selectors : list string)
  : outcome Selection :=
  match selectors with
  | [] => ok selection
  | selector :: rest =>
      match unpack2 (split dot selector) with
      | inl _ => raise (selector_error selector)
      | inr (model, explore) =>
          parse_selectors_from
            (<[model := sel_get selection model ∪ {[explore]}]> selection) rest
      end
  end.

Definition parse_selectors (selectors : list string) : outcome Selection :=
  parse_selectors_from ∅ selectors.

(** The shape the specification asks of a selector: exactly two
    dot-separated tokens, both non-empty. *)
Definition two_nonempty_tokens (selector : string) : bool :=
  match split dot selector with
  | [model; explore] =>
      negb (String.eqb model EmptyString) && negb (String.eqb explore EmptyString)
  | _ => false
  end.

(** ** Hierarchy building *)

Definition select_error {A} `{Named A} (difference : gset string)
    (project_name : string) : exn :=
  FonzException
    (class_name A +:+
     (if decide (size difference = 1) then EmptyString else "s") +:+ " " +:+
     join ", " (elements difference) +:+
     " not found in LookML for project '" +:+ project_name +:+ "'.").

(** [_select]: the objects of [select_from] whose name was chosen, in the
    order of [select_from].  With a chosen name missing, the message is
    built from [select_from[0]], which raises on an empty list.  The
    missing names are joined in the iteration order of a Python set, which
    the language leaves open; [elements] fixes one. *)
Definition _select {A} `{Named A} (project_name : string)
    (choices : list string) (select_from : list A) : outcome (list A) :=
  let unique_choices : gset string := list_to_set choices in
  let select_from_names : gset string := list_to_set (name_of <$> select_from) in
  let difference := unique_choices ∖ select_from_names in
  if decide (difference = ∅)
  then ok (filter (λ each, name_of each ∈ unique_choices) select_from)
  else match select_from with
       | [] => raise IndexError
       | _ :: _ => raise (select_error (A:=A) difference project_name)
       end.

(** Lines 112-115: the model-level wildcard is popped and its explore
    names are added to the selection of every model of the project. *)
Definition expand_models (selection : Selection) (project_models : list Model.t)
  : Selection :=
  if decide (star ∈ dom selection) then
    let explore_names := sel_get selection star in
    foldl (λ sel model,
             <[Model.name model := sel_get sel (Model.name model) ∪ explore_names]> sel)
          (delete star selection) project_models
  else selection.

(** Lines 123-128: the explore-level wildcard of one model is removed and
    replaced by the names of all its explores. *)
Definition expand_explores (selected_explore_names : gset string)
    (model : Model.t) : gset string :=
  if decide (star ∈ selected_explore_names) then
    (selected_explore_names ∖ {[star]})
      ∪ list_to_set (Explore.name <$> Model.explores model)
  else selected_explore_names.

(** Lines 135-140: the dimensions of one chosen explore. *)
Definition load_dimensions (client : LookerClient) (model_name : string)
    (explore : Explore.t) : Explore.t :=
  foldl (λ explore dimension_json,
           let dimension := Dimension.from_json dimension_json in
           let dimension :=
             Dimension.set_url (base_url client +:+ Dimension.url dimension)
                               dimension in
           if Dimension.ignore dimension then explore
           else Explore.add_dimension dimension explore)
        explore
        (get_dimensions client model_name (Explore.name explore)).

(** Lines 121-142: the loop over the selected models.  The sets of
    [selection] are updated in place, so the selection is threaded: a later
    model of the same name meets the set an earlier one expanded. *)
Fixpoint build_models (client : LookerClient) (project_name : string)
    (selection : Selection) (selected_models : list Model.t)
  : outcome (list Model.t) :=
  match selected_models with
  | [] => ok []
  | model :: rest =>
      let selected_explore_names :=
        expand_explores (sel_get selection (Model.name model)) model in
      let selection := <[Model.name model := selected_explore_names]> selection in
      try! selected_explores :=
        _select project_name (elements selected_explore_names)
                (Model.explores model) in
      let selected_explores :=
        load_dimensions client (Model.name model) <$> selected_explores in
      try! rest' := build_models client project_name selection rest in
      ok (Model.set_explores selected_explores model :: rest')
  end.

(** [build_project]: the value it leaves in [self.project.models], or the
    exception it raises (the project is then as it was). *)
Definition build_project (client : LookerClient) (project_name : string)
    (selectors : list string) : outcome (list Model.t) :=
  try! selection := parse_selectors selectors in
  let all_models := Model.from_json <$> get_models client in
  let project_models :=
    filter (λ model, Model.project model = project_name) all_models in
  let selection := expand_models selection project_models in
  try! selected_models :=
    _select project_name (elements (dom selection)) project_models in
  build_models client project_name selection selected_models.

(** ** The validation pass *)

(** What [_get_error_from_api_result] returns. *)
Record error_params : Type := {
  ep_sql : pyobj;
  ep_line_number : option Z;
  ep_message : pyobj
}.

Definition _get_error_from_api_result (result : pyobj) : outcome error_params :=
  try! errors := getitem result "errors" in
  try! error := getitem0 errors in
  try! message := getitem error "message_details" in
  try! loc := py_get error "sql_error_loc" in
  try! line_number :=
    (if truthy loc then
       try! loc := getitem error "sql_error_loc" in
       try! line := getitem loc "line" in
       try! n := minus_one line in
       ok (Some n)
     else ok None) in
  try! sql := getitem result "sql" in
  ok {| ep_sql := sql; ep_line_number := line_number; ep_message := message |}.

(** The hierarchy is changed in place while it is validated.  An object is
    addressed by its position (model [i], explore [j] of it, dimension [k]
    of that), which is where the writes of a query unit go. *)
Definition update_model (i : nat) (f : Model.t → Model.t)
    (models : list Model.t) : list Model.t :=
  alter f i models.

Definition update_explore (i j : nat) (f : Explore.t → Explore.t)
    (models : list Model.t) : list Model.t :=
  update_model i
    (λ m, Model.set_explores (alter f j (Model.explores m)) m) models.

Definition update_dimension (i j k : nat) (f : Dimension.t → Dimension.t)
    (models : list Model.t) : list Model.t :=
  update_explore i j
    (λ e, Explore.set_dimensions (alter f k (Explore.dimensions e)) e) models.

(** Reading the hierarchy at a position. *)
Definition lookup_explore (i j : nat) (models : list Model.t) : option Explore.t :=
  models !! i ≫= λ model, Model.explores model !! j.

Definition lookup_dimension (i j k : nat) (models : list Model.t)
  : option Dimension.t :=
  lookup_explore i j models ≫= λ explore, Explore.dimensions explore !! k.

Section Validation.

(** [str(result)] of the f-strings that report an unexpected API result. *)
Variable py_str : pyobj → string.

Variable client : LookerClient.

Definition unexpected_result (kind : string) (model_name node_name : string)
    (result : pyobj) : exn :=
  FonzException
    ("Unexpected API result for " +:+ kind +:+ " '" +:+ model_name +:+ "/" +:+
     node_name +:+ "'. " +:+ "API result obtained: " +:+ py_str result).

(** [_query_explore] on the explore at [(i, j)]; [model] and [explore] give
    the fields it reads, which validation never changes. *)
Definition _query_explore (i j : nat) (model : Model.t) (explore : Explore.t)
    (models : list Model.t) : list Model.t * outcome (option SqlError.t) :=
  let dimensions := Dimension.name <$> Explore.dimensions explore in
  match query_result client (Model.name model) (Explore.name explore)
                     dimensions with
  | inl e => (models, raise e)
  | inr result =>
      match result with
      | PyList _ => (models, ok None)
      | PyDict d =>
          if truthy (default PyNone (dict_get "errors" d)) then
            match _get_error_from_api_result result with
            | inl e => (models, raise e)
            | inr error_params =>
                let path := Model.name model +:+ "/" +:+ Explore.name explore in
                let error :=
                  SqlError.mk path (ep_sql error_params)
                    (ep_line_number error_params) (ep_message error_params)
                    None in
                let models := update_explore i j (Explore.set_error error) models in
                let models := update_explore i j (Explore.set_errored true) models in
                let models := update_model i (Model.set_errored true) models in
                (models, ok (Some error))
            end
          else
            (models, raise (unexpected_result "explore" (Model.name model)
                              (Explore.name explore) result))
      | _ =>
          (models, raise (unexpected_result "explore" (Model.name model)
                            (Explore.name explore) result))
      end
  end.

(** [_query_dimension] on the dimension at [(i, j, k)]. *)
Definition _query_dimension (i j k : nat) (model : Model.t)
    (explore : Explore.t) (dimension : Dimension.t)
    (models : list Model.t) : list Model.t * outcome (option SqlError.t) :=
  match query_result client (Model.name model) (Explore.name explore)
                     [Dimension.name dimension] with
  | inl e => (models, raise e)
  | inr result =>
      match result with
      | PyList _ => (models, ok None)
      | PyDict d =>
          if truthy (default PyNone (dict_get "errors" d)) then
            match _get_error_from_api_result result with
            | inl e => (models, raise e)
            | inr error_params =>
                let path := Model.name model +:+ "/" +:+ Dimension.name dimension in
                let error :=
                  SqlError.mk path (ep_sql error_params)
                    (ep_line_number error_params) (ep_message error_params)
                    (Some (Dimension.url dimension)) in
                let models := update_dimension i j k (Dimension.set_error error) models in
                let models := update_dimension i j k (Dimension.set_errored true) models in
                let models := update_explore i j (Explore.set_errored true) models in
                let models := update_model i (Model.set_errored true) models in
                (models, ok (Some error))
            end
          else
            (models, raise (unexpected_result "dimension" (Model.name model)
                              (Dimension.name dimension) result))
      | _ =>
          (models, raise (unexpected_result "dimension" (Model.name model)
                            (Dimension.name dimension) result))
      end
  end.


(** *** Query units, the event loop and [_validate_explore] *)

(** A query unit: the coroutine of one task, [_query_explore] in batch mode
    or [_query_dimension] for the dimension at position [k]. *)
Inductive query_unit : Type :=
| ExploreUnit
| DimensionUnit (k : nat) (dimension : Dimension.t).

(** The tasks [_validate_explore] creates, in creation order; [batch] is
    tested for truth, whatever object it is. *)
Definition units (batch : pyobj) (explore : Explore.t) : list query_unit :=
  if truthy batch then [ExploreUnit]
  else imap DimensionUnit (Explore.dimensions explore).

(** The dimension names a unit sends with its query. *)
Definition unit_fields (explore : Explore.t) (u : query_unit) : list string :=
  match u with
  | ExploreUnit => Dimension.name <$> Explore.dimensions explore
  | DimensionUnit _ dimension => [Dimension.name dimension]
  end.

Definition run_unit (i j : nat) (model : Model.t) (explore : Explore.t)
    (u : query_unit) (models : list Model.t)
  : list Model.t * outcome (option SqlError.t) :=
  match u with
  | ExploreUnit => _query_explore i j model explore models
  | DimensionUnit k dimension =>
      _query_dimension i j k model explore dimension models
  end.

(** What the event loop is seen to do: a task is created and its query
    goes out ([Submit], with the explore's position, the task's number and
    the fields it asks for), and later its result arrives and the rest of
    the coroutine runs ([Complete]). *)
Inductive event : Type :=
| Submit (i j t : nat) (fields : list string)
| Complete (i j t : nat).

(** The state of a run: the hierarchy and the events so far. *)
Record run_state : Type := {
  rs_models : list Model.t;
  rs_trace : list event
}.

Definition log (ev : event) (st : run_state) : run_state :=
  {| rs_models := rs_models st; rs_trace := rs_trace st ++ [ev] |}.

(** The order in which the results of the pending tasks arrive is the
    event loop's and the network's.  It is given by a list of picks: each
    pick chooses, modulo their number, which of the still pending tasks
    completes next (the first one when the picks run out).  Every order of
    completion is the order of some picks. *)
Fixpoint completion_order_fuel {A} (fuel : nat) (picks : list nat)
    (pending : list A) : list A :=
  match fuel with
  | 0 => []
  | S fuel' =>
      let p := hd 0 picks `mod` length pending in
      match pending !! p with
      | Some task =>
          task :: completion_order_fuel fuel' (tl picks) (delete p pending)
      | None => []
      end
  end.

Definition completion_order {A} (picks : list nat) (pending : list A) : list A :=
  completion_order_fuel (length pending) picks pending.

(** [asyncio.gather] under [run_until_complete]: the tasks complete in
    [order]; the result of task [t] goes to place [t] of the result list;
    the first exception raised stops the loop and is raised to the caller,
    the tasks still pending are left as they are. *)
Fixpoint gather (i j : nat) (model : Model.t) (explore : Explore.t)
    (order : list (nat * query_unit)) (results : list (option SqlError.t))
    (st : run_state) : run_state * outcome (list (option SqlError.t)) :=
  match order with
  | [] => (st, ok results)
  | (t, u) :: rest =>
      let st := log (Complete i j t) st in
      match run_unit i j model explore u (rs_models st) with
      | (models, inl e) =>
          ({| rs_models := models; rs_trace := rs_trace st |}, raise e)
      | (models, inr r) =>
          gather i j model explore rest (<[t := r]> results)
                 {| rs_models := models; rs_trace := rs_trace st |}
      end
  end.

Definition create_tasks (i j : nat) (explore : Explore.t)
    (tasks : list (nat * query_unit)) (st : run_state) : run_state :=
  foldl (λ st task, log (Submit i j task.1 (unit_fields explore task.2)) st)
        st tasks.

(** [_validate_explore] on the explore at [(i, j)], its tasks completing in
    the order of [picks]. *)
Definition _validate_explore (i j : nat) (model : Model.t) (explore : Explore.t)
    (batch : pyobj) (picks : list nat) (st : run_state)
  : run_state * outcome (list SqlError.t) :=
  let tasks := imap pair (units batch explore) in
  let st := create_tasks i j explore tasks st in
  match gather i j model explore (completion_order picks tasks)
               (replicate (length tasks) None) st with
  | (st, inl e) => (st, raise e)
  | (st, inr validation_errors) => (st, ok (omap id validation_errors))
  end.

(** *** [validate] *)

(** The explores in the order the two loops of [validate] visit them, each
    with its position and its model.  The objects are taken as the
    hierarchy has them when the run starts; the run reads only their names,
    their dimension lists and the names and URLs of the dimensions, which
    it never writes. *)
Definition explore_work (models : list Model.t)
  : list (nat * nat * Model.t * Explore.t) :=
  mjoin (imap (λ i model,
                 imap (λ j explore, (i, j, model, explore))
                      (Model.explores model))
              models).

(** The loops of [validate] over the explores still to visit:
    [validation_errors] is the list accumulated so far, and it is returned
    also when an exception ends the run, as it stood then. *)
Fixpoint validate_loop (batch : pyobj) (sched : nat → nat → list nat)
    (work : list (nat * nat * Model.t * Explore.t))
    (validation_errors : list SqlError.t) (st : run_state)
  : run_state * list SqlError.t * option exn :=
  match work with
  | [] => (st, validation_errors, None)
  | (i, j, model, explore) :: rest =>
      match _validate_explore i j model explore batch (sched i j) st with
      | (st, inl e) => (st, validation_errors, Some e)
      | (st, inr errors) =>
          validate_loop batch sched rest (validation_errors ++ errors) st
      end
  end.

(** [validate] on the hierarchy [models]: the hierarchy and the events
    after the run, and the errors returned or the exception raised.
    [sched i j] gives the picks for the tasks of the explore at [(i, j)]. *)
Definition validate (batch : pyobj) (sched : nat → nat → list nat)
    (models : list Model.t) : run_state * outcome (list SqlError.t) :=
  match validate_loop batch sched (explore_work models) []
          {| rs_models := models; rs_trace := [] |} with
  | (st, _, Some e) => (st, raise e)
  | (st, validation_errors, None) => (st, ok validation_errors)
  end.


End Validation.

(** *** Counting the units in flight *)




(** The dimension the listing entry [dimension_json] becomes in the
    hierarchy of [client]. *)
Definition listed_dimension (client : LookerClient)
    (dimension_json : Dimension.json) : Dimension.t :=
  Dimension.mk (Dimension.json_name dimension_json)
               (base_url client +:+ Dimension.json_url dimension_json)
               (Dimension.json_ignore dimension_json) false None.


(** The events of the tasks of the explore at [(i, j)]. *)
Definition submit_event (i j : nat) (explore : Explore.t)
    (task : nat * query_unit) : event :=
  Submit i j task.1 (unit_fields explore task.2).

Definition complete_event (i j : nat) (task : nat * query_unit) : event :=
  Complete i j task.1.


(** The hierarchy as [build_project] leaves it, before any unit was
    classified: the same objects with no flag raised and no error. *)
Definition clear_dimension (d : Dimension.t) : Dimension.t :=
  Dimension.mk (Dimension.name d) (Dimension.url d) (Dimension.ignore d) false None.

Definition clear_explore (e : Explore.t) : Explore.t :=
  Explore.mk (Explore.name e) (clear_dimension <$> Explore.dimensions e) false None.

Definition clear_model (m : Model.t) : Model.t :=
  Model.mk (Model.name m) (Model.project m) (clear_explore <$> Model.explores m)
           false.

Definition skeleton (models : list Model.t) : list Model.t :=
  clear_model <$> models.

(** *** What a unit writes *)

(** The writes of a failed dimension unit and of a failed explore unit, as
    one change of the model at the unit's position. *)
Definition failed_dimension (error : SqlError.t) (d : Dimension.t) : Dimension.t :=
  Dimension.mk (Dimension.name d) (Dimension.url d) (Dimension.ignore d) true
               (Some error).

Definition write_dimension_error (j k : nat) (error : SqlError.t)
    (m : Model.t) : Model.t :=
  Model.mk (Model.name m) (Model.project m)
    (alter (λ e, Explore.mk (Explore.name e)
                   (alter (failed_dimension error) k (Explore.dimensions e))
                   true (Explore.error e))
           j (Model.explores m))
    true.

Definition write_explore_error (j : nat) (error : SqlError.t)
    (m : Model.t) : Model.t :=
  Model.mk (Model.name m) (Model.project m)
    (alter (λ e, Explore.mk (Explore.name e) (Explore.dimensions e) true
                   (Some error))
           j (Model.explores m))
    true.

(** The flags of a hierarchy are closed upwards: an errored dimension sits
    in an errored explore, an errored explore in an errored model. *)
Definition explore_upward (e : Explore.t) : bool :=
  forallb (λ d, implb (Dimension.errored d) (Explore.errored e))
          (Explore.dimensions e).

Definition model_upward (m : Model.t) : bool :=
  forallb (λ e, implb (Explore.errored e) (Model.errored m) && explore_upward e)
          (Model.explores m).

Definition errored_upward (models : list Model.t) : bool :=
  forallb model_upward models.

(** No flag of [before] is cleared and no error of it is removed in
    [after]. *)
Definition flags_kept (before after : list Model.t) : Prop :=
  (∀ i m, before !! i = Some m →
     ∃ m', after !! i = Some m'
           ∧ (Model.errored m = true → Model.errored m' = true))
  ∧ (∀ i j e, lookup_explore i j before = Some e →
       ∃ e', lookup_explore i j after = Some e'
             ∧ (Explore.errored e = true → Explore.errored e' = true)
             ∧ (is_Some (Explore.error e) → is_Some (Explore.error e')))
  ∧ (∀ i j k d, lookup_dimension i j k before = Some d →
       ∃ d', lookup_dimension i j k after = Some d'
             ∧ (Dimension.errored d = true → Dimension.errored d' = true)
             ∧ (is_Some (Dimension.error d) → is_Some (Dimension.error d'))).

(** What a unit returns or raises: it depends on the result of its query,
    not on the hierarchy. *)
Definition unit_outcome (py_str : pyobj → string) (client : LookerClient)
    (model : Model.t) (explore : Explore.t) (u : query_unit)
  : outcome (option SqlError.t) :=
  (run_unit py_str client 0 0 model explore u []).2.

(** What a unit that ended with [res] has written to the hierarchy. *)
Definition unit_write (i j : nat) (u : query_unit)
    (res : outcome (option SqlError.t)) (models : list Model.t) : list Model.t :=
  match res with
  | inr (Some error) =>
      match u with
      | ExploreUnit => alter (write_explore_error j error) i models
      | DimensionUnit k _ => alter (write_dimension_error j k error) i models
      end
  | _ => models
  end.

(** A task of per-dimension mode: its number is the position of its
    dimension. *)
Definition dimension_task (task : nat * query_unit) : Prop :=
  ∃ dimension, task.2 = DimensionUnit task.1 dimension.

(** The explore names chosen for the model name [model_name] by a
    selection: those given for the model itself and, if the selection has
    the model wildcard, those given for the wildcard. *)
Definition chosen_explores (selection : Selection) (model_name : string)
  : gset string :=
  sel_get selection model_name
    ∪ (if decide (star ∈ dom selection) then sel_get selection star else ∅).

End SqlValidator.

(** ** The runner *)

Module Runner.
Import SqlValidator.


End Runner.

(** ** A small project to run the validator on *)

Module Sample.
Import SqlValidator.

(** The error payload of a failed query, reported at line 42. *)
Definition error_payload : pyobj :=
  PyDict [("errors",
           PyList [PyDict [("message_details", PyStr "column not found");
                           ("sql_error_loc", PyDict [("line", PyInt 42)])]]);
          ("sql", PyStr "SELECT 1")].

(** The project [p] has the model [a] with the explores [x] and [y]; the
    model [b] belongs to another project.  Every explore lists the
    dimensions [d1], [d2] (ignored), [d3] and [d4].  A query that asks for
    [d3] fails, unless it is for the explore [y], whose every query comes
    back as [None]. *)
Definition client : LookerClient := {|
  base_url := "https://looker";
  get_models :=
    [Model.mk_json "a" "p" [Explore.mk_json "x"; Explore.mk_json "y"];
     Model.mk_json "b" "q" [Explore.mk_json "z"]];
  get_dimensions := λ _ _,
    [Dimension.mk_json "d1" "/d1" false; Dimension.mk_json "d2" "/d2" true;
     Dimension.mk_json "d3" "/d3" false; Dimension.mk_json "d4" "/d4" false];
  query_result := λ _ explore fields,
    if decide (explore = "y") then inr PyNone
    else if decide ("d3" ∈ fields) then inr error_payload
    else inr (PyList [])
|}.

(** A client whose listing has no model at all. *)
Definition empty_client : LookerClient := {|
  base_url := "https://looker";
  get_models := [];
  get_dimensions := λ _ _, [];
  query_result := λ _ _ _, inr (PyList [])
|}.

Definition py_str (result : pyobj) : string :=
  match result with
  | PyNone => "None"
  | _ => "..."
  end.

Definition dimension (name : string) : Dimension.t :=
  Dimension.mk name ("https://looker/" +:+ name) false false None.

Definition explore (name : string) : Explore.t :=
  Explore.mk name [dimension "d1"; dimension "d3"; dimension "d4"] false None.

(** The hierarchy [build_project] makes of the selector [a.*]. *)
Definition model_a : Model.t := Model.mk "a" "p" [explore "x"; explore "y"] false.

(** The same with the explore [x] alone, as the selector [a.x] gives it. *)
Definition model_ax : Model.t := Model.mk "a" "p" [explore "x"] false.

(** Tasks complete in the order they were created. *)
Definition fifo : nat → nat → list nat := λ _ _, [].

(** A client whose every query succeeds. *)
Definition healthy_client : LookerClient := {|
  base_url := "https://looker";
  get_models := get_models client;
  get_dimensions := get_dimensions client;
  query_result := λ _ _ _, inr (PyList [])
|}.

(** The tasks of an explore complete last first, then the first. *)
Definition lifo : nat → nat → list nat := λ _ _, [2; 1].

(** A model whose only explore has no dimension to validate. *)
Definition model_bare : Model.t :=
  Model.mk "a" "p" [Explore.mk "x" [] false None] false.

(** An error payload that lacks the SQL text. *)
Definition payload_without_sql : list (string * pyobj) :=
  [("errors", PyList [PyDict [("message_details", PyStr "column not found")]])].

(** A client whose every query comes back with that payload. *)
Definition careless_client : LookerClient := {|
  base_url := "https://looker";
  get_models := get_models client;
  get_dimensions := get_dimensions client;
  query_result := λ _ _ _, inr (PyDict payload_without_sql)
|}.

End Sample.

(** * Properties *)

Import SqlValidator.

(** ** The sample project *)

Example build_sample_a :
  build_project Sample.client "p" ["a.*"] = inr [Sample.model_a].
Proof. vm_compute. reflexivity. Qed.

Example build_sample_ax :
  build_project Sample.client "p" ["a.x"] = inr [Sample.model_ax].
Proof. vm_compute. reflexivity. Qed.

Example line_number_is_one_less :
  _get_error_from_api_result Sample.error_payload
  = inr {| ep_sql := PyStr "SELECT 1"; ep_line_number := Some 41%Z;
           ep_message := PyStr "column not found" |}.
Proof. reflexivity. Qed.

(** ** Strings *)

Lemma split_nonempty sep s : split sep s ≠ [].
Proof.
  destruct s as [|c s]; simpl; [done|].
  destruct (Ascii.eqb c sep); [done|]. by destruct (split sep s).
Qed.

Lemma split_length sep s : length (split sep s) = S (count_sep sep s).
Proof.
  induction s as [|c s IH]; simpl; [done|].
  destruct (Ascii.eqb c sep); simpl; [by rewrite IH|].
  destruct (split sep s) as [|w ws] eqn:E; simpl in *; [done|]. exact IH.
Qed.

Lemma unpack2_ok (pieces : list string) :
  length pieces = 2 → ∃ model explore, pieces = [model; explore].
Proof. destruct pieces as [|m [|e [|x l]]]; simpl; intros; try lia; eauto. Qed.

Lemma unpack2_inv pieces model explore :
  unpack2 pieces = inr (model, explore) → pieces = [model; explore].
Proof.
  destruct pieces as [|a [|b [|c l]]]; unfold unpack2, raise, ok; congruence.
Qed.

Lemma unpack2_one_dot selector :
  count_sep dot selector = 1 ↔
  ∃ model explore, unpack2 (split dot selector) = inr (model, explore).
Proof.
  pose proof (split_length dot selector) as Hl. split.
  - intros H1. rewrite H1 in Hl. apply unpack2_ok in Hl as (m & e & ->). eauto.
  - intros (m & e & H).
    destruct (split dot selector) as [|m' [|e' [|x l]]]; simpl in *;
      try discriminate. lia.
Qed.

(** ** Selector parsing *)

Lemma parse_selectors_from_shape selection selectors :
  match parse_selectors_from selection selectors with
  | inr _ => Forall (λ s, count_sep dot s = 1) selectors
  | inl e =>
      ∃ pre s post, selectors = pre ++ s :: post
        ∧ Forall (λ s, count_sep dot s = 1) pre
        ∧ count_sep dot s ≠ 1
        ∧ e = selector_error s
  end.
Proof.
  revert selection. induction selectors as [|s rest IH]; intros selection; simpl.
  - constructor.
  - destruct (unpack2 (split dot s)) as [e|[m x]] eqn:E.
    + exists [], s, rest.
      split; [done|]. split; [constructor|]. split; [|done].
      intros H1. apply unpack2_one_dot in H1 as (m & x & H). congruence.
    + assert (count_sep dot s = 1) as H1 by (apply unpack2_one_dot; eauto).
      specialize (IH (<[m := sel_get selection m ∪ {[x]}]> selection)).
      destruct (parse_selectors_from _ rest) as [e|sel'].
      * destruct IH as (pre & s' & post & -> & Hpre & Hs & ->).
        exists (s :: pre), s', post.
        split; [done|]. split; [by constructor|]. by split.
      * by constructor.
Qed.

(** C1, as the code has it: [parse_selectors] succeeds exactly when every
    selector holds exactly one dot, whatever stands on its two sides;
    otherwise it raises the [FonzException] that quotes the first selector
    without exactly one dot and the format ['model_name.explore_name']. *)
Theorem parse_selectors_one_dot (selectors : list string) :
  match parse_selectors selectors with
  | inr _ => Forall (λ s, count_sep dot s = 1) selectors
  | inl e =>
      ∃ pre s post, selectors = pre ++ s :: post
        ∧ Forall (λ s, count_sep dot s = 1) pre
        ∧ count_sep dot s ≠ 1
        ∧ e = FonzException
                ("Explore selector '" +:+ s +:+ "' is not valid." +:+ newline +:+
                 "Instead, use the format 'model_name.explore_name'. " +:+
                 "Use 'model_name.*' to select all explores in a model.")
  end.
Proof. apply parse_selectors_from_shape. Qed.

(** C1, as stated, fails: the selector [.x] has an empty token before the
    dot, and parsing it succeeds, with the empty string as model name. *)
Lemma parse_selectors_empty_token :
  two_nonempty_tokens ".x" = false
  ∧ parse_selectors [".x"] = inr {[ EmptyString := {[ "x" ]} ]}.
Proof. split; vm_compute; reflexivity. Qed.

(** ** Choosing by name *)

Section Select.
Context {A : Type} {named : Named A}.

(** When every chosen name is available, [_select] returns the chosen
    objects in the order of [select_from]. *)
Lemma select_found project_name choices (select_from : list A) :
  (∀ c, c ∈ choices → c ∈ name_of <$> select_from) →
  _select project_name choices select_from
  = inr (filter (λ each, name_of each ∈ choices) select_from).
Proof.
  intros Hall. unfold _select.
  case_decide as Hd; [|exfalso; apply Hd; set_solver].
  unfold ok. f_equal. apply list_filter_iff. intros x. set_solver.
Qed.

(** With a name missing and something to choose from, [_select] raises the
    [FonzException] that lists every missing name, once each, with the
    class name in the plural unless exactly one name is missing. *)
Lemma select_missing project_name choices (select_from : list A) c :
  select_from ≠ [] → c ∈ choices → c ∉ name_of <$> select_from →
  ∃ missing : list string,
    NoDup missing
    ∧ (∀ x, x ∈ missing ↔ x ∈ choices ∧ x ∉ name_of <$> select_from)
    ∧ _select project_name choices select_from
      = inl (FonzException
               (class_name A +:+
                (if decide (length missing = 1) then EmptyString else "s") +:+
                " " +:+ join ", " missing +:+
                " not found in LookML for project '" +:+ project_name +:+ "'.")).
Proof.
  intros Hne Hc Hnc.
  set (difference := (list_to_set choices : gset string)
                       ∖ list_to_set (name_of <$> select_from)).
  exists (elements difference). split; [apply NoDup_elements|]. split.
  - intros x. rewrite elem_of_elements. unfold difference. set_solver.
  - unfold _select. fold difference.
    case_decide as Hd; [exfalso; set_solver|].
    destruct select_from; [done|]. reflexivity.
Qed.

(** C10: with at least one chosen name and nothing to choose from,
    [_select] does not reach its [FonzException]: building the message
    reads [select_from[0]], and the call ends in an [IndexError]. *)
Theorem select_empty_available (project_name : string) (choices : list string) :
  choices ≠ [] →
  _select project_name choices ([] : list A) = inl IndexError.
Proof.
  intros Hne. unfold _select.
  case_decide as Hd; [|reflexivity].
  destruct choices as [|c choices]; [done|]. exfalso. set_solver.
Qed.

End Select.

Lemma select_empty_available_witness :
  ["zzz"] ≠ []
  ∧ _select "p" ["zzz"] ([] : list Model.t) = inl IndexError.
Proof. split; [discriminate|]. apply select_empty_available. discriminate. Defined.

(** The same through [build_project]: when the selection names a model and
    the listing has no model of the project, the build ends in the
    [IndexError] of [_select]. *)
Lemma build_project_no_models client project selectors selection model_name :
  parse_selectors selectors = inr selection →
  model_name ∈ dom selection → model_name ≠ star →
  filter (λ model, Model.project model = project)
         (Model.from_json <$> get_models client) = [] →
  build_project client project selectors = inl IndexError.
Proof.
  intros Hp Hin Hstar Hnone. unfold build_project. rewrite Hp. simpl.
  rewrite Hnone. rewrite select_empty_available; [done|].
  intros Hnil. apply elements_empty_inv in Hnil.
  assert (model_name ∈ dom (expand_models selection [])) as Hin'.
  { unfold expand_models. case_decide; simpl; [|done].
    rewrite dom_delete_L. set_solver. }
  set_solver.
Qed.

(** C4 at a hierarchy without models: the selection names the model [zzz],
    the listing is empty, and the build ends in an [IndexError], not in the
    [FonzException] that would list [zzz]. *)
Lemma build_project_missing_model_IndexError :
  build_project Sample.empty_client "p" ["zzz.a"] = inl IndexError.
Proof. vm_compute. reflexivity. Qed.

(** ** Selections as sets of pairs *)

Lemma sel_get_insert (selection : Selection) m m' X :
  sel_get (<[m := X]> selection) m' = if decide (m = m') then X else sel_get selection m'.
Proof.
  unfold sel_get. rewrite lookup_insert. by case_decide.
Qed.

(** Two selections with the same models and the same explores for each
    are the same selection. *)
Lemma selection_eq (sel1 sel2 : Selection) :
  dom sel1 = dom sel2 → (∀ m, sel_get sel1 m = sel_get sel2 m) → sel1 = sel2.
Proof.
  intros Hdom Hget. apply map_eq. intros m.
  specialize (Hget m). unfold sel_get in Hget.
  destruct (sel1 !! m) as [X1|] eqn:E1, (sel2 !! m) as [X2|] eqn:E2;
    simpl in *; [by subst|..|done].
  - assert (m ∈ dom sel1) as Hin by (apply elem_of_dom; eauto).
    rewrite Hdom in Hin. apply elem_of_dom in Hin as [? ?]. congruence.
  - assert (m ∈ dom sel2) as Hin by (apply elem_of_dom; eauto).
    rewrite <- Hdom in Hin. apply elem_of_dom in Hin as [? ?]. congruence.
Qed.

Lemma parse_selectors_from_get selection selectors selection' :
  parse_selectors_from selection selectors = inr selection' →
  ∀ m e, e ∈ sel_get selection' m ↔
         e ∈ sel_get selection m ∨ ∃ s, s ∈ selectors ∧ split dot s = [m; e].
Proof.
  revert selection. induction selectors as [|s rest IH]; intros selection; simpl.
  - intros [= <-] m e. split; [auto|]. intros [?|(s & Hs & _)]; [done|].
    by apply elem_of_nil in Hs.
  - destruct (unpack2 (split dot s)) as [?|[m0 e0]] eqn:E; [done|].
    intros Hrest m e. rewrite (IH _ Hrest), sel_get_insert.
    assert (split dot s = [m0; e0]) as Hs by by apply unpack2_inv.
    split.
    + intros [Hin|(s' & Hin & Hs')].
      * case_decide; [|auto]. subst m0.
        apply elem_of_union in Hin as [|Hin]; [auto|].
        apply elem_of_singleton in Hin as ->. right. exists s. split; [left|done].
      * right. exists s'. split; [by right|done].
    + intros [Hin|(s' & Hin & Hs')].
      * left. case_decide; [set_solver|done].
      * apply elem_of_cons in Hin as [->|Hin]; [|right; eauto].
        left. rewrite Hs in Hs'. injection Hs' as -> ->.
        rewrite decide_True by done. set_solver.
Qed.

Lemma parse_selectors_from_dom selection selectors selection' :
  parse_selectors_from selection selectors = inr selection' →
  ∀ m, m ∈ dom selection' ↔
       m ∈ dom selection ∨ ∃ s e, s ∈ selectors ∧ split dot s = [m; e].
Proof.
  revert selection. induction selectors as [|s rest IH]; intros selection; simpl.
  - intros [= <-] m. split; [auto|]. intros [?|(s & e & Hs & _)]; [done|].
    by apply elem_of_nil in Hs.
  - destruct (unpack2 (split dot s)) as [?|[m0 e0]] eqn:E; [done|].
    intros Hrest m. rewrite (IH _ Hrest), dom_insert_L.
    assert (split dot s = [m0; e0]) as Hs by by apply unpack2_inv.
    split.
    + intros [Hin|(s' & e & Hin & Hs')].
      * apply elem_of_union in Hin as [Hin|Hin]; [|auto].
        apply elem_of_singleton in Hin as ->. right. exists s, e0.
        split; [left|done].
      * right. exists s', e. split; [by right|done].
    + intros [Hin|(s' & e & Hin & Hs')].
      * left. set_solver.
      * apply elem_of_cons in Hin as [->|Hin]; [|right; eauto].
        left. rewrite Hs in Hs'. injection Hs' as -> ->. set_solver.
Qed.

Lemma parse_selectors_succeeds selectors :
  Forall (λ s, count_sep dot s = 1) selectors →
  ∃ selection, parse_selectors selectors = inr selection.
Proof.
  intros Hall. pose proof (parse_selectors_from_shape ∅ selectors) as Hshape.
  fold (parse_selectors selectors) in Hshape.
  destruct (parse_selectors selectors) as [e|selection]; [|eauto].
  destruct Hshape as (pre & s & post & -> & _ & Hs & _).
  apply Forall_app in Hall as [_ Hall]. by inversion Hall.
Qed.

(** The parsed selection depends only on which selectors are given, not on
    their order or on how often each is given. *)
Lemma parse_selectors_same_elements selectors selectors' selection :
  (∀ s, s ∈ selectors ↔ s ∈ selectors') →
  parse_selectors selectors = inr selection →
  parse_selectors selectors' = inr selection.
Proof.
  intros Hsame Hp.
  pose proof (parse_selectors_from_shape ∅ selectors) as Hshape.
  fold (parse_selectors selectors) in Hshape. rewrite Hp in Hshape.
  destruct (parse_selectors_succeeds selectors') as [selection' Hp'].
  { rewrite Forall_forall in Hshape |- *. intros s Hs. apply Hshape, Hsame, Hs. }
  rewrite Hp'. f_equal. symmetry. apply selection_eq.
  - apply set_eq. intros m.
    rewrite (parse_selectors_from_dom _ _ _ Hp), (parse_selectors_from_dom _ _ _ Hp').
    set_solver.
  - intros m. apply set_eq. intros e.
    rewrite (parse_selectors_from_get _ _ _ Hp), (parse_selectors_from_get _ _ _ Hp').
    set_solver.
Qed.

Lemma parse_selectors_order selectors selectors' selection :
  selectors ≡ₚ selectors' →
  parse_selectors selectors = inr selection →
  parse_selectors selectors' = inr selection.
Proof.
  intros Hperm. apply parse_selectors_same_elements.
  intros s. by rewrite Hperm.
Qed.

Lemma parse_selectors_twice selectors selection :
  parse_selectors selectors = inr selection →
  parse_selectors (selectors ++ selectors) = inr selection.
Proof.
  apply parse_selectors_same_elements. intros s. rewrite elem_of_app. tauto.
Qed.

(** C5: the selectors [a.*] and [a.x], expanded for a model [a] whose
    explores are named [x] and [y], select the explores [x] and [y]: the
    wildcard is gone, [x] counts once, and the selection is the same when
    the selectors come in the other order or are given twice. *)
Theorem wildcard_absorbs_duplicates (model : Model.t) :
  Model.name model = "a" →
  list_to_set (Explore.name <$> Model.explores model) = ({[ "x"; "y" ]} : gset string) →
  ∃ selection,
    parse_selectors ["a.*"; "a.x"] = inr selection
    ∧ expand_explores (sel_get selection (Model.name model)) model = {[ "x"; "y" ]}
    ∧ (star ∉ expand_explores (sel_get selection (Model.name model)) model)
    ∧ parse_selectors ["a.x"; "a.*"] = inr selection
    ∧ parse_selectors (["a.*"; "a.x"] ++ ["a.*"; "a.x"]) = inr selection.
Proof.
  intros Hname Hexplores.
  assert (parse_selectors ["a.*"; "a.x"] = inr {[ "a" := {[ "*"; "x" ]} ]}) as Hp
    by (vm_compute; reflexivity).
  eexists. split; [exact Hp|].
  assert (expand_explores (sel_get {[ "a" := {[ "*"; "x" ]} ]} (Model.name model)) model
          = {[ "x"; "y" ]}) as Hexp.
  { rewrite Hname. unfold sel_get. rewrite lookup_singleton_eq. simpl.
    unfold expand_explores. rewrite Hexplores.
    rewrite decide_True by (unfold star; set_solver).
    apply set_eq. intros e. unfold star.
    rewrite elem_of_union, elem_of_difference, !elem_of_union, !elem_of_singleton.
    split; [|tauto]. intros [[[->| ->] Hne]|H]; [done|auto..]. }
  split; [exact Hexp|]. split.
  - rewrite Hexp. unfold star.
    rewrite elem_of_union, !elem_of_singleton. intros [?|?]; discriminate.
  - split.
    + apply (parse_selectors_order ["a.*"; "a.x"]); [apply Permutation_swap|exact Hp].
    + by apply parse_selectors_twice.
Qed.

Lemma wildcard_absorbs_duplicates_witness :
  let model :=
    Model.mk "a" "p" [Explore.mk "x" [] false None; Explore.mk "y" [] false None]
             false in
  ∃ selection,
    parse_selectors ["a.*"; "a.x"] = inr selection
    ∧ expand_explores (sel_get selection (Model.name model)) model = {[ "x"; "y" ]}
    ∧ (star ∉ expand_explores (sel_get selection (Model.name model)) model)
    ∧ parse_selectors ["a.x"; "a.*"] = inr selection
    ∧ parse_selectors (["a.*"; "a.x"] ++ ["a.*"; "a.x"]) = inr selection.
Proof.
  intros model. apply (wildcard_absorbs_duplicates model).
  - reflexivity.
  - simpl. apply set_eq. intros e. set_solver.
Defined.

(** ** Writes to the hierarchy *)

Lemma update_model_lookup i f (models : list Model.t) i' :
  update_model i f models !! i'
  = if decide (i = i') then f <$> models !! i' else models !! i'.
Proof.
  unfold update_model. case_decide as Hi.
  - subst. apply list_lookup_alter_eq.
  - by apply list_lookup_alter_ne.
Qed.

Lemma lookup_explore_update_model i f models i' j' :
  (∀ m, Model.explores (f m) = Model.explores m) →
  lookup_explore i' j' (update_model i f models) = lookup_explore i' j' models.
Proof.
  intros Hf. unfold lookup_explore. rewrite update_model_lookup.
  case_decide; [|done]. destruct (models !! i'); simpl; [|done]. by rewrite Hf.
Qed.

Lemma lookup_explore_update_explore i j f models i' j' :
  lookup_explore i' j' (update_explore i j f models)
  = if decide (i = i' ∧ j = j') then f <$> lookup_explore i' j' models
    else lookup_explore i' j' models.
Proof.
  unfold lookup_explore, update_explore. rewrite update_model_lookup.
  destruct (decide (i = i')) as [->|Hi].
  - destruct (models !! i') as [m|]; simpl; [|by case_decide].
    destruct (decide (j = j')) as [->|Hj].
    + rewrite decide_True by done. apply list_lookup_alter_eq.
    + rewrite decide_False by tauto. by apply list_lookup_alter_ne.
  - by rewrite decide_False by tauto.
Qed.

Lemma lookup_dimension_update_model i f models i' j' k' :
  (∀ m, Model.explores (f m) = Model.explores m) →
  lookup_dimension i' j' k' (update_model i f models)
  = lookup_dimension i' j' k' models.
Proof.
  intros Hf. unfold lookup_dimension. by rewrite lookup_explore_update_model.
Qed.

Lemma lookup_dimension_update_explore i j f models i' j' k' :
  (∀ e, Explore.dimensions (f e) = Explore.dimensions e) →
  lookup_dimension i' j' k' (update_explore i j f models)
  = lookup_dimension i' j' k' models.
Proof.
  intros Hf. unfold lookup_dimension. rewrite lookup_explore_update_explore.
  case_decide; [|done].
  destruct (lookup_explore i' j' models); simpl; [|done]. by rewrite Hf.
Qed.

Lemma lookup_dimension_update_dimension i j k f models i' j' k' :
  lookup_dimension i' j' k' (update_dimension i j k f models)
  = if decide (i = i' ∧ j = j' ∧ k = k')
    then f <$> lookup_dimension i' j' k' models
    else lookup_dimension i' j' k' models.
Proof.
  unfold lookup_dimension, update_dimension.
  rewrite lookup_explore_update_explore.
  destruct (decide (i = i' ∧ j = j')) as [[-> ->]|Hij].
  - destruct (lookup_explore i' j' models) as [e|]; simpl; [|by case_decide].
    destruct (decide (k = k')) as [->|Hk].
    + rewrite decide_True by done. apply list_lookup_alter_eq.
    + rewrite decide_False by tauto. by apply list_lookup_alter_ne.
  - by rewrite decide_False by tauto.
Qed.

Lemma update_model_other i f (models : list Model.t) i' :
  i' ≠ i → update_model i f models !! i' = models !! i'.
Proof. intros. rewrite update_model_lookup. by rewrite decide_False. Qed.

Lemma update_explore_other_model i j f (models : list Model.t) i' :
  i' ≠ i → update_explore i j f models !! i' = models !! i'.
Proof. apply update_model_other. Qed.

Lemma update_dimension_other_model i j k f (models : list Model.t) i' :
  i' ≠ i → update_dimension i j k f models !! i' = models !! i'.
Proof. apply update_explore_other_model. Qed.

(** ** One query unit with an error payload *)

Lemma lookup_explore_Some i j (models : list Model.t) model explore :
  models !! i = Some model → Model.explores model !! j = Some explore →
  lookup_explore i j models = Some explore.
Proof. intros Hm He. unfold lookup_explore. by rewrite Hm. Qed.

Lemma lookup_dimension_Some i j k (models : list Model.t) model explore dimension :
  models !! i = Some model → Model.explores model !! j = Some explore →
  Explore.dimensions explore !! k = Some dimension →
  lookup_dimension i j k models = Some dimension.
Proof.
  intros Hm He Hd. unfold lookup_dimension.
  by rewrite (lookup_explore_Some _ _ _ _ _ Hm He).
Qed.

(** C3: in per-dimension mode, a query unit whose result is an error
    payload returns one [SqlError] with the path [model/dimension]; it sets
    [errored] on its dimension, its explore and its model and the error on
    its dimension, and it leaves every other dimension of the explore,
    every other explore of the model and every other model as they were. *)
Theorem dimension_error_marks_its_path
    (py_str : pyobj → string) (client : LookerClient) (i j k : nat)
    (model : Model.t) (explore : Explore.t) (dimension : Dimension.t)
    (models : list Model.t) (d : list (string * pyobj))
    (error_params : error_params) :
  models !! i = Some model →
  Model.explores model !! j = Some explore →
  Explore.dimensions explore !! k = Some dimension →
  query_result client (Model.name model) (Explore.name explore)
               [Dimension.name dimension] = inr (PyDict d) →
  truthy (default PyNone (dict_get "errors" d)) = true →
  _get_error_from_api_result (PyDict d) = inr error_params →
  ∃ error models',
    _query_dimension py_str client i j k model explore dimension models
    = (models', inr (Some error))
    ∧ SqlError.path error = Model.name model +:+ "/" +:+ Dimension.name dimension
    ∧ lookup_dimension i j k models'
      = Some (Dimension.mk (Dimension.name dimension) (Dimension.url dimension)
                (Dimension.ignore dimension) true (Some error))
    ∧ lookup_explore i j models'
      = Some (Explore.mk (Explore.name explore)
                (alter (λ _, Dimension.mk (Dimension.name dimension)
                               (Dimension.url dimension)
                               (Dimension.ignore dimension) true (Some error))
                       k (Explore.dimensions explore))
                true (Explore.error explore))
    ∧ (∃ model', models' !! i = Some model'
         ∧ Model.errored model' = true
         ∧ Model.name model' = Model.name model
         ∧ Model.project model' = Model.project model)
    ∧ (∀ k', k' ≠ k →
         lookup_dimension i j k' models' = lookup_dimension i j k' models)
    ∧ (∀ j', j' ≠ j → lookup_explore i j' models' = lookup_explore i j' models)
    ∧ (∀ i', i' ≠ i → models' !! i' = models !! i').
Proof.
  intros Hm He Hd Hq Ht Hp.
  unfold _query_dimension. rewrite Hq, Ht, Hp. eexists _, _.
  split; [reflexivity|]. split; [reflexivity|].
  split; [|split; [|split; [|split; [|split]]]].
  - rewrite lookup_dimension_update_model, lookup_dimension_update_explore by done.
    rewrite !lookup_dimension_update_dimension, !decide_True by done.
    by rewrite (lookup_dimension_Some _ _ _ _ _ _ _ Hm He Hd).
  - rewrite lookup_explore_update_model by done.
    unfold update_dimension.
    rewrite !lookup_explore_update_explore, !decide_True by done.
    rewrite (lookup_explore_Some _ _ _ _ _ Hm He). simpl.
    unfold Explore.set_errored, Explore.set_dimensions, Dimension.set_errored,
      Dimension.set_error; simpl. do 2 f_equal.
    rewrite list_alter_alter_eq. apply list_alter_ext; [|done].
    intros d' Hd'. rewrite Hd in Hd'. by injection Hd' as <-.
  - unfold update_dimension, update_explore.
    rewrite !update_model_lookup, !decide_True, Hm by done. simpl. eauto.
  - intros k' Hk.
    rewrite lookup_dimension_update_model, lookup_dimension_update_explore by done.
    by rewrite !lookup_dimension_update_dimension, !decide_False by naive_solver.
  - intros j' Hj. rewrite lookup_explore_update_model by done.
    unfold update_dimension.
    by rewrite !lookup_explore_update_explore, !decide_False by naive_solver.
  - intros i' Hi. unfold update_dimension, update_explore.
    by rewrite !update_model_other.
Qed.

Lemma dimension_error_marks_its_path_witness :
  ∃ error models',
    _query_dimension Sample.py_str Sample.client 0 0 1 Sample.model_a
      (Sample.explore "x") (Sample.dimension "d3") [Sample.model_a]
    = (models', inr (Some error))
    ∧ SqlError.path error = "a/d3"
    ∧ SqlError.line_number error = Some 41%Z
    ∧ lookup_dimension 0 0 0 models' = Some (Sample.dimension "d1")
    ∧ lookup_dimension 0 0 2 models' = Some (Sample.dimension "d4")
    ∧ lookup_explore 0 1 models' = Some (Sample.explore "y").
Proof.
  epose proof (dimension_error_marks_its_path Sample.py_str Sample.client 0 0 1
                 Sample.model_a (Sample.explore "x") (Sample.dimension "d3")
                 [Sample.model_a] _ _) as Hthm.
  edestruct Hthm as (error & models' & Hrun & Hpath & _ & _ & _ & Hk & Hj & _);
    try reflexivity.
  exists error, models'. split; [exact Hrun|]. split; [exact Hpath|].
  split; [by injection Hrun as _ <-|].
  split; [by rewrite Hk|]. split; [by rewrite Hk|]. by rewrite Hj.
Defined.

Lemma completion_order_single {A} picks (task : A) :
  completion_order picks [task] = [task].
Proof.
  unfold completion_order. cbn [length completion_order_fuel].
  by rewrite Nat.mod_1_r.
Qed.

Lemma units_batch batch explore :
  truthy batch = true → units batch explore = [ExploreUnit].
Proof. intros Hb. unfold units. by rewrite Hb. Qed.

Lemma units_per_dimension batch explore :
  truthy batch = false →
  units batch explore = imap DimensionUnit (Explore.dimensions explore).
Proof. intros Hb. unfold units. by rewrite Hb. Qed.

(** C2: in batch mode, when the one query of an explore comes back with an
    error payload, [_validate_explore] returns exactly one [SqlError], with
    the path [model/explore]; the explore carries the error and is
    [errored], its model is [errored], and every dimension of the hierarchy
    is as it was, as are the other explores and the other models. *)
Theorem batch_error_marks_explore_and_model
    (py_str : pyobj → string) (client : LookerClient) (i j : nat)
    (model : Model.t) (explore : Explore.t) (batch : pyobj)
    (picks : list nat) (st : run_state) (d : list (string * pyobj))
    (error_params : error_params) :
  truthy batch = true →
  rs_models st !! i = Some model →
  Model.explores model !! j = Some explore →
  query_result client (Model.name model) (Explore.name explore)
               (Dimension.name <$> Explore.dimensions explore) = inr (PyDict d) →
  truthy (default PyNone (dict_get "errors" d)) = true →
  _get_error_from_api_result (PyDict d) = inr error_params →
  ∃ error st',
    _validate_explore py_str client i j model explore batch picks st
    = (st', inr [error])
    ∧ SqlError.path error = Model.name model +:+ "/" +:+ Explore.name explore
    ∧ rs_trace st'
      = rs_trace st ++ [Submit i j 0 (Dimension.name <$> Explore.dimensions explore);
                        Complete i j 0]
    ∧ lookup_explore i j (rs_models st')
      = Some (Explore.mk (Explore.name explore) (Explore.dimensions explore)
                true (Some error))
    ∧ (∃ model', rs_models st' !! i = Some model'
         ∧ Model.errored model' = true
         ∧ Model.name model' = Model.name model
         ∧ Model.project model' = Model.project model)
    ∧ (∀ i' j' k', lookup_dimension i' j' k' (rs_models st')
                   = lookup_dimension i' j' k' (rs_models st))
    ∧ (∀ j', j' ≠ j → lookup_explore i j' (rs_models st')
                      = lookup_explore i j' (rs_models st))
    ∧ (∀ i', i' ≠ i → rs_models st' !! i' = rs_models st !! i').
Proof.
  intros Hb Hm He Hq Ht Hp.
  unfold _validate_explore. rewrite (units_batch _ _ Hb). simpl imap.
  rewrite completion_order_single. simpl.
  unfold _query_explore. rewrite Hq, Ht, Hp. simpl. eexists _, _.
  split; [reflexivity|]. split; [reflexivity|]. simpl.
  split; [by rewrite <- app_assoc|].
  split; [|split; [|split; [|split]]].
  - rewrite lookup_explore_update_model by done.
    rewrite !lookup_explore_update_explore, !decide_True by done.
    by rewrite (lookup_explore_Some _ _ _ _ _ Hm He).
  - unfold update_explore.
    rewrite !update_model_lookup, !decide_True, Hm by done. simpl. eauto.
  - intros i' j' k'. rewrite lookup_dimension_update_model by done.
    by rewrite !lookup_dimension_update_explore by done.
  - intros j' Hj. rewrite lookup_explore_update_model by done.
    by rewrite !lookup_explore_update_explore, !decide_False by naive_solver.
  - intros i' Hi. unfold update_explore. by rewrite !update_model_other.
Qed.

Lemma batch_error_marks_explore_and_model_witness :
  ∃ error st',
    _validate_explore Sample.py_str Sample.client 0 0 Sample.model_a
      (Sample.explore "x") (PyBool true) []
      {| rs_models := [Sample.model_a]; rs_trace := [] |}
    = (st', inr [error])
    ∧ SqlError.path error = "a/x"
    ∧ lookup_explore 0 0 (rs_models st')
      = Some (Explore.mk "x" (Explore.dimensions (Sample.explore "x")) true
                (Some error))
    ∧ ∀ i' j' k', lookup_dimension i' j' k' (rs_models st')
                  = lookup_dimension i' j' k' [Sample.model_a].
Proof.
  epose proof (batch_error_marks_explore_and_model Sample.py_str Sample.client
                 0 0 Sample.model_a (Sample.explore "x") (PyBool true) []
                 {| rs_models := [Sample.model_a]; rs_trace := [] |} _ _) as Hthm.
  edestruct Hthm as (error & st' & Hrun & Hpath & _ & He & _ & Hd & _);
    try reflexivity.
  exists error, st'. split; [exact Hrun|]. split; [exact Hpath|].
  split; [exact He|exact Hd].
Defined.

(** ** The mode of a run *)

Section Mode.
Variable py_str : pyobj → string.
Variable client : LookerClient.





End Mode.


(** ** A result of an unexpected shape *)

Section Abort.
Variable py_str : pyobj → string.
Variable client : LookerClient.




End Abort.



(** The same in per-dimension mode: the explore [x] is validated, with one
    error, and the first unit of the explore [y] ends the run. *)
Example unexpected_result_per_dimension :
  (validate Sample.py_str Sample.client (PyBool false) Sample.fifo
            [Sample.model_a]).2
  = inl (FonzException
           "Unexpected API result for dimension 'a/d1'. API result obtained: None").
Proof. vm_compute. reflexivity. Qed.

(** ** The dimensions of the built hierarchy *)


Lemma load_dimensions_fold client (listing : list Dimension.json) explore :
  foldl (λ explore dimension_json,
           let dimension := Dimension.from_json dimension_json in
           let dimension :=
             Dimension.set_url (base_url client +:+ Dimension.url dimension)
                               dimension in
           if Dimension.ignore dimension then explore
           else Explore.add_dimension dimension explore)
        explore listing
  = Explore.mk (Explore.name explore)
      (Explore.dimensions explore
         ++ (listed_dimension client
               <$> filter (λ dj, Dimension.json_ignore dj = false) listing))
      (Explore.errored explore) (Explore.error explore).
Proof.
  revert explore. induction listing as [|dj listing IH]; intros explore; simpl.
  - rewrite app_nil_r. by destruct explore.
  - rewrite IH. destruct (Dimension.json_ignore dj) eqn:Hdj; simpl.
    + rewrite filter_cons_False by (rewrite Hdj; done). reflexivity.
    + rewrite filter_cons_True by done. simpl. rewrite <- app_assoc. simpl.
      unfold listed_dimension, Dimension.set_url, Dimension.from_json. simpl.
      rewrite Hdj. reflexivity.
Qed.

(** The explore after its dimensions were fetched: the listing entries
    that are not ignored, in listing order, behind the base URL. *)
Lemma load_dimensions_spec client model_name explore :
  load_dimensions client model_name explore
  = Explore.mk (Explore.name explore)
      (Explore.dimensions explore
         ++ (listed_dimension client
               <$> filter (λ dj, Dimension.json_ignore dj = false)
                     (get_dimensions client model_name (Explore.name explore))))
      (Explore.errored explore) (Explore.error explore).
Proof. apply load_dimensions_fold. Qed.




(** ** The order of completion *)

Lemma completion_order_fuel_perm {A} picks (pending : list A) :
  completion_order_fuel (length pending) picks pending ≡ₚ pending.
Proof.
  remember (length pending) as n eqn:Hn. revert picks pending Hn.
  induction n as [|n IH]; intros picks pending Hn; simpl.
  - by destruct pending.
  - destruct (lookup_lt_is_Some_2 pending (hd 0 picks `mod` length pending))
      as [task Htask].
    { apply Nat.mod_upper_bound. lia. }
    rewrite Htask. etrans; [|symmetry; apply (delete_Permutation _ _ _ Htask)].
    constructor. apply IH.
    rewrite length_delete by eauto. lia.
Qed.

(** Every task completes once, in the order the picks decide. *)
Lemma completion_order_perm {A} picks (pending : list A) :
  completion_order picks pending ≡ₚ pending.
Proof. apply completion_order_fuel_perm. Qed.


(** ** The events of a run *)






Section Events.
Variables (A : Type) (submit complete : A → event).
Hypothesis submit_is_Submit :
  ∀ task, ∃ i j t fields, submit task = Submit i j t fields.
Hypothesis complete_is_Complete :
  ∀ task, ∃ i j t, complete task = Complete i j t.





End Events.

Section RunTrace.
Variable py_str : pyobj → string.
Variable client : LookerClient.

Lemma create_tasks_spec i j explore tasks st :
  create_tasks i j explore tasks st
  = {| rs_models := rs_models st;
       rs_trace := rs_trace st ++ (submit_event i j explore <$> tasks) |}.
Proof.
  unfold create_tasks. revert st.
  induction tasks as [|task tasks IH]; intros st; simpl.
  - rewrite app_nil_r. by destruct st.
  - rewrite IH. simpl. by rewrite <- app_assoc.
Qed.


Lemma gather_models (P : list Model.t → Prop) i j model explore order results
    st st' r :
  (∀ u models models' res,
     run_unit py_str client i j model explore u models = (models', res) →
     P models → P models') →
  gather py_str client i j model explore order results st = (st', r) →
  P (rs_models st) → P (rs_models st').
Proof.
  intros Hunit. revert results st.
  induction order as [|[t u] order IH]; intros results st; simpl.
  - by intros [= <- <-].
  - destruct (run_unit _ _ _ _ _ _ _ _) as [models [e|res]] eqn:Hrun.
    + intros [= <- <-] HP. simpl. by eapply Hunit.
    + intros Hrest HP. eapply IH; [exact Hrest|]. simpl. by eapply Hunit.
Qed.


Lemma _validate_explore_models (P : list Model.t → Prop) i j model explore
    batch picks st st' r :
  (∀ u models models' res,
     run_unit py_str client i j model explore u models = (models', res) →
     P models → P models') →
  _validate_explore py_str client i j model explore batch picks st = (st', r) →
  P (rs_models st) → P (rs_models st').
Proof.
  intros Hunit. unfold _validate_explore. rewrite create_tasks_spec.
  destruct (gather _ _ _ _ _ _ _ _ _) as [st1 r1] eqn:Hg.
  intros Hres HP.
  assert (P (rs_models st1)) by (eapply gather_models; eauto).
  by destruct r1; injection Hres as <- _.
Qed.

End RunTrace.

(** ** Ignored dimensions *)




Section Ignored.
Variable py_str : pyobj → string.
Variable client : LookerClient.





End Ignored.



(** ** Units in flight *)









Section InFlight.
Variable py_str : pyobj → string.
Variable client : LookerClient.


End InFlight.



(** ** What a run leaves unchanged *)

Lemma fmap_alter_absorb {A B} (g : A → B) (f : A → A) i (l : list A) :
  (∀ x, g (f x) = g x) → g <$> alter f i l = g <$> l.
Proof.
  intros Hgf. revert i. induction l as [|x l IH]; intros [|i]; simpl; [done..| |].
  - by rewrite Hgf.
  - f_equal. apply IH.
Qed.

Lemma skeleton_update_model i f models :
  (∀ m, clear_model (f m) = clear_model m) →
  skeleton (update_model i f models) = skeleton models.
Proof. apply fmap_alter_absorb. Qed.

Lemma skeleton_update_explore i j f models :
  (∀ e, clear_explore (f e) = clear_explore e) →
  skeleton (update_explore i j f models) = skeleton models.
Proof.
  intros Hf. apply skeleton_update_model. intros m. unfold clear_model. simpl.
  by rewrite (fmap_alter_absorb clear_explore f j _ Hf).
Qed.

Lemma skeleton_update_dimension i j k f models :
  (∀ d, clear_dimension (f d) = clear_dimension d) →
  skeleton (update_dimension i j k f models) = skeleton models.
Proof.
  intros Hf. apply skeleton_update_explore. intros e. unfold clear_explore. simpl.
  by rewrite (fmap_alter_absorb clear_dimension f k _ Hf).
Qed.

Section Unchanged.
Variable py_str : pyobj → string.
Variable client : LookerClient.

(** A query unit writes flags and errors only. *)
Lemma run_unit_skeleton i j model explore u models models' res :
  run_unit py_str client i j model explore u models = (models', res) →
  skeleton models' = skeleton models.
Proof.
  destruct u as [|k dimension]; simpl.
  - unfold _query_explore.
    destruct (query_result _ _ _ _) as [e|[| | | | |d]]; try by intros [= <- _].
    destruct (truthy _); [|by intros [= <- _]].
    destruct (_get_error_from_api_result _); intros [= <- _]; [done|].
    rewrite skeleton_update_model by done.
    by rewrite !skeleton_update_explore by done.
  - unfold _query_dimension.
    destruct (query_result _ _ _ _) as [e|[| | | | |d]]; try by intros [= <- _].
    destruct (truthy _); [|by intros [= <- _]].
    destruct (_get_error_from_api_result _); intros [= <- _]; [done|].
    rewrite skeleton_update_model, skeleton_update_explore by done.
    by rewrite !skeleton_update_dimension by done.
Qed.

(** A query unit reads of the model and the explore it is given only the
    names and the names of the dimensions. *)
Lemma run_unit_reads_names i j model model' explore explore' u models :
  Model.name model = Model.name model' →
  Explore.name explore = Explore.name explore' →
  Dimension.name <$> Explore.dimensions explore
  = Dimension.name <$> Explore.dimensions explore' →
  run_unit py_str client i j model explore u models
  = run_unit py_str client i j model' explore' u models.
Proof.
  intros Hm He Hd. destruct u as [|k dimension]; simpl.
  - unfold _query_explore. by rewrite Hm, He, Hd.
  - unfold _query_dimension. by rewrite Hm, He.
Qed.

Lemma validate_loop_skeleton batch sched work validation_errors st st' errors r :
  validate_loop py_str client batch sched work validation_errors st
  = (st', errors, r) →
  skeleton (rs_models st') = skeleton (rs_models st).
Proof.
  revert validation_errors st.
  induction work as [|[[[i j] model] explore] work IH]; intros acc st; simpl.
  - by intros [= <- _ _].
  - destruct (_validate_explore _ _ _ _ _ _ _ _ _) as [st1 r1] eqn:Hv.
    assert (skeleton (rs_models st1) = skeleton (rs_models st)) as H1.
    { assert (∀ u ms ms' res,
                run_unit py_str client i j model explore u ms = (ms', res) →
                skeleton ms = skeleton (rs_models st) →
                skeleton ms' = skeleton (rs_models st)) as Hunit.
      { intros u ms ms' res Hrun <-. by eapply run_unit_skeleton. }
      exact (_validate_explore_models py_str client
               (λ ms, skeleton ms = skeleton (rs_models st))
               _ _ _ _ _ _ _ _ _ Hunit Hv eq_refl). }
    destruct r1 as [e|errors1].
    + by intros [= <- _ _].
    + intros Hrest. by rewrite (IH _ _ Hrest).
Qed.

(** A run of [validate] changes nothing of the hierarchy but the flags and
    the errors. *)
Lemma validate_skeleton batch sched models :
  skeleton (rs_models (validate py_str client batch sched models).1)
  = skeleton models.
Proof.
  unfold validate.
  destruct (validate_loop _ _ _ _ _ _ _) as [[st errors] r] eqn:Hloop.
  apply validate_loop_skeleton in Hloop. by destruct r.
Qed.

End Unchanged.

(** ** The writes of a unit, in one step *)

Lemma write_dimension_error_alter i j k error (models : list Model.t) :
  update_model i (Model.set_errored true)
    (update_explore i j (Explore.set_errored true)
       (update_dimension i j k (Dimension.set_errored true)
          (update_dimension i j k (Dimension.set_error error) models)))
  = alter (write_dimension_error j k error) i models.
Proof.
  unfold update_dimension, update_explore, update_model.
  rewrite !list_alter_alter_eq. apply list_alter_ext; [|done].
  intros m _. unfold write_dimension_error, Model.set_errored, Model.set_explores.
  simpl. f_equal. rewrite !list_alter_alter_eq. apply list_alter_ext; [|done].
  intros e _. unfold Explore.set_errored, Explore.set_dimensions. simpl. f_equal.
  rewrite !list_alter_alter_eq. by apply list_alter_ext.
Qed.

Lemma write_explore_error_alter i j error (models : list Model.t) :
  update_model i (Model.set_errored true)
    (update_explore i j (Explore.set_errored true)
       (update_explore i j (Explore.set_error error) models))
  = alter (write_explore_error j error) i models.
Proof.
  unfold update_explore, update_model.
  rewrite !list_alter_alter_eq. apply list_alter_ext; [|done].
  intros m _. unfold write_explore_error, Model.set_errored, Model.set_explores.
  simpl. f_equal. rewrite !list_alter_alter_eq. by apply list_alter_ext.
Qed.

Section Steps.
Variable py_str : pyobj → string.
Variable client : LookerClient.

(** What running a unit can do to the hierarchy. *)
Lemma run_unit_step i j model explore u models models' res :
  run_unit py_str client i j model explore u models = (models', res) →
  match res with
  | inr (Some error) =>
      match u with
      | ExploreUnit => models' = alter (write_explore_error j error) i models
      | DimensionUnit k _ =>
          models' = alter (write_dimension_error j k error) i models
      end
  | _ => models' = models
  end.
Proof.
  destruct u as [|k dimension]; simpl.
  - unfold _query_explore.
    destruct (query_result _ _ _ _) as [e|[| | | | |d]];
      try by intros [= <- <-].
    destruct (truthy _); [|by intros [= <- <-]].
    destruct (_get_error_from_api_result _); intros [= <- <-]; [done|].
    apply write_explore_error_alter.
  - unfold _query_dimension.
    destruct (query_result _ _ _ _) as [e|[| | | | |d]];
      try by intros [= <- <-].
    destruct (truthy _); [|by intros [= <- <-]].
    destruct (_get_error_from_api_result _); intros [= <- <-]; [done|].
    apply write_dimension_error_alter.
Qed.

(** What a unit returns or raises does not depend on the hierarchy. *)
Lemma run_unit_outcome i j model explore u models i' j' models' :
  (run_unit py_str client i j model explore u models).2
  = (run_unit py_str client i' j' model explore u models').2.
Proof.
  destruct u as [|k dimension]; simpl.
  - unfold _query_explore.
    destruct (query_result _ _ _ _) as [e|[| | | | |d]]; try done.
    destruct (truthy _); [|done].
    by destruct (_get_error_from_api_result _).
  - unfold _query_dimension.
    destruct (query_result _ _ _ _) as [e|[| | | | |d]]; try done.
    destruct (truthy _); [|done].
    by destruct (_get_error_from_api_result _).
Qed.

Lemma validate_loop_models (P : list Model.t → Prop) batch sched work
    validation_errors st st' errors r :
  (∀ i j model explore u models models' res,
     run_unit py_str client i j model explore u models = (models', res) →
     P models → P models') →
  validate_loop py_str client batch sched work validation_errors st
  = (st', errors, r) →
  P (rs_models st) → P (rs_models st').
Proof.
  intros Hunit. revert validation_errors st.
  induction work as [|[[[i j] model] explore] work IH]; intros acc st; simpl.
  - by intros [= <- _ _].
  - destruct (_validate_explore _ _ _ _ _ _ _ _ _) as [st1 r1] eqn:Hv.
    intros Hres HP.
    assert (P (rs_models st1)) as HP1.
    { eapply _validate_explore_models; [|exact Hv|exact HP].
      intros u ms ms' res. apply Hunit. }
    destruct r1 as [e|errors1].
    + by injection Hres as <- _ _.
    + by eapply IH.
Qed.

(** A property of the hierarchy that every unit keeps holds after a run. *)
Lemma validate_models (P : list Model.t → Prop) batch sched models :
  (∀ i j model explore u models models' res,
     run_unit py_str client i j model explore u models = (models', res) →
     P models → P models') →
  P models → P (rs_models (validate py_str client batch sched models).1).
Proof.
  intros Hunit HP. unfold validate.
  destruct (validate_loop _ _ _ _ _ _ _) as [[st errors] r] eqn:Hloop.
  apply (validate_loop_models P _ _ _ _ _ _ _ _ Hunit) in Hloop; [|done].
  by destruct r.
Qed.

End Steps.

(** ** Flags after a run *)

Lemma forallb_elem_of {A} (f : A → bool) (l : list A) :
  forallb f l = true ↔ ∀ x, x ∈ l → f x = true.
Proof.
  induction l as [|x l IH]; simpl.
  - split; [|done]. intros _ x Hx. by apply elem_of_nil in Hx.
  - rewrite andb_true_iff, IH. split.
    + intros [Hx Hl] y Hy. apply elem_of_cons in Hy as [->|Hy]; auto.
    + intros Hall. split; [apply Hall; left|]. intros y Hy. apply Hall. by right.
Qed.

Lemma elem_of_alter {A} (f : A → A) i (l : list A) x' :
  x' ∈ alter f i l → x' ∈ l ∨ ∃ x, x ∈ l ∧ x' = f x.
Proof.
  intros Hx. apply list_elem_of_lookup in Hx as [i' Hx].
  rewrite list_lookup_alter in Hx. case_decide.
  - destruct (l !! i) as [x|] eqn:Hl; simpl in Hx; [|done].
    injection Hx as <-. right. exists x. split; [|done].
    by eapply list_elem_of_lookup_2.
  - left. by eapply list_elem_of_lookup_2.
Qed.

Lemma explore_upward_errored e :
  Explore.errored e = true → explore_upward e = true.
Proof.
  intros He. unfold explore_upward. apply forallb_elem_of. intros d _.
  rewrite He. by destruct (Dimension.errored d).
Qed.

Lemma model_upward_write j (f : Explore.t → Explore.t) m :
  (∀ e, Explore.errored (f e) = true) →
  model_upward m = true →
  model_upward (Model.mk (Model.name m) (Model.project m)
                  (alter f j (Model.explores m)) true) = true.
Proof.
  intros Hf Hm. unfold model_upward in *. simpl.
  rewrite forallb_elem_of in Hm |- *. intros e' He'.
  apply elem_of_alter in He' as [He'|(e & He & ->)].
  - specialize (Hm _ He'). apply andb_true_iff in Hm as [_ Hm].
    rewrite Hm. by destruct (Explore.errored e').
  - rewrite Hf. simpl. by apply explore_upward_errored.
Qed.

Lemma errored_upward_alter i (f : Model.t → Model.t) models :
  (∀ m, model_upward m = true → model_upward (f m) = true) →
  errored_upward models = true → errored_upward (alter f i models) = true.
Proof.
  intros Hf Hms. unfold errored_upward in *.
  rewrite forallb_elem_of in Hms |- *. intros m' Hm'.
  apply elem_of_alter in Hm' as [Hm'|(m & Hm & ->)]; auto.
Qed.

Lemma flags_kept_refl models : flags_kept models models.
Proof. repeat split; eauto. Qed.

Lemma flags_kept_trans ms1 ms2 ms3 :
  flags_kept ms1 ms2 → flags_kept ms2 ms3 → flags_kept ms1 ms3.
Proof.
  intros (Hm12 & He12 & Hd12) (Hm23 & He23 & Hd23). split; [|split].
  - intros i m Hm. destruct (Hm12 _ _ Hm) as (m2 & Hm2 & H2).
    destruct (Hm23 _ _ Hm2) as (m3 & Hm3 & H3). eauto.
  - intros i j e He. destruct (He12 _ _ _ He) as (e2 & He2 & H2 & H2').
    destruct (He23 _ _ _ He2) as (e3 & He3 & H3 & H3'). eauto 10.
  - intros i j k d Hd. destruct (Hd12 _ _ _ _ Hd) as (d2 & Hd2 & H2 & H2').
    destruct (Hd23 _ _ _ _ Hd2) as (d3 & Hd3 & H3 & H3'). eauto 10.
Qed.

Lemma flags_kept_dimension_error i j k error models :
  flags_kept models (alter (write_dimension_error j k error) i models).
Proof.
  rewrite <- write_dimension_error_alter. split; [|split].
  - intros i' m Hm. unfold update_dimension, update_explore.
    rewrite !update_model_lookup, Hm.
    case_decide; simpl; eauto.
  - intros i' j' e He. rewrite lookup_explore_update_model by done.
    unfold update_dimension. rewrite !lookup_explore_update_explore, He.
    case_decide; simpl; eauto.
  - intros i' j' k' d Hd.
    rewrite lookup_dimension_update_model, lookup_dimension_update_explore by done.
    rewrite !lookup_dimension_update_dimension, Hd.
    case_decide; simpl; eauto.
Qed.

Lemma flags_kept_explore_error i j error models :
  flags_kept models (alter (write_explore_error j error) i models).
Proof.
  rewrite <- write_explore_error_alter. split; [|split].
  - intros i' m Hm. unfold update_explore.
    rewrite !update_model_lookup, Hm.
    case_decide; simpl; eauto.
  - intros i' j' e He. rewrite lookup_explore_update_model by done.
    rewrite !lookup_explore_update_explore, He.
    case_decide; simpl; eauto.
  - intros i' j' k' d Hd.
    rewrite lookup_dimension_update_model by done.
    rewrite !lookup_dimension_update_explore by done. eauto.
Qed.

(** X16: a run of [validate] leaves the names, the URLs, the [ignore] flags
    and the shape of the hierarchy as they were: it writes [errored] flags
    and errors only, in either mode, for every order of completion, and
    also when it is aborted. *)
Theorem validate_writes_flags_only
    (py_str : pyobj → string) (client : LookerClient) (batch : pyobj)
    (sched : nat → nat → list nat) (models : list Model.t) :
  skeleton (rs_models (validate py_str client batch sched models).1)
  = skeleton models.
Proof. apply validate_skeleton. Qed.

(** X17: during a run no [errored] flag is cleared and no error is removed,
    on any model, explore or dimension, and every node stays at its
    position. *)
Theorem validate_keeps_flags
    (py_str : pyobj → string) (client : LookerClient) (batch : pyobj)
    (sched : nat → nat → list nat) (models : list Model.t) :
  flags_kept models (rs_models (validate py_str client batch sched models).1).
Proof.
  apply (validate_models py_str client (flags_kept models));
    [|apply flags_kept_refl].
  intros i j model explore u ms ms' res Hrun Hkept.
  apply run_unit_step in Hrun. eapply flags_kept_trans; [exact Hkept|].
  destruct res as [e|[error|]]; try (subst; apply flags_kept_refl).
  destruct u; subst.
  - apply flags_kept_explore_error.
  - apply flags_kept_dimension_error.
Qed.

(** X18: if, before a run, every errored dimension sits in an errored explore
    and every errored explore in an errored model, the same holds after
    the run, in either mode, for every order of completion, and also when
    the run is aborted. *)
Theorem validate_keeps_errored_upward
    (py_str : pyobj → string) (client : LookerClient) (batch : pyobj)
    (sched : nat → nat → list nat) (models : list Model.t) :
  errored_upward models = true →
  errored_upward (rs_models (validate py_str client batch sched models).1) = true.
Proof.
  apply (validate_models py_str client (λ ms, errored_upward ms = true)).
  intros i j model explore u ms ms' res Hrun Hup.
  apply run_unit_step in Hrun.
  destruct res as [e|[error|]]; try by subst.
  destruct u; subst; apply errored_upward_alter; try done; intros m Hm.
  - by apply model_upward_write.
  - by apply model_upward_write.
Qed.

Lemma validate_keeps_errored_upward_witness :
  errored_upward [Sample.model_a] = true
  ∧ errored_upward
      (rs_models (validate Sample.py_str Sample.client (PyBool false)
                    Sample.fifo [Sample.model_a]).1) = true.
Proof.
  split; [reflexivity|].
  apply (validate_keeps_errored_upward Sample.py_str Sample.client (PyBool false)
           Sample.fifo [Sample.model_a]).
  reflexivity.
Defined.

(** ** The order of completion does not matter *)

Lemma write_dimension_error_commute i j k1 k2 error1 error2 (models : list Model.t) :
  k1 ≠ k2 →
  alter (write_dimension_error j k1 error1) i
    (alter (write_dimension_error j k2 error2) i models)
  = alter (write_dimension_error j k2 error2) i
      (alter (write_dimension_error j k1 error1) i models).
Proof.
  intros Hk. rewrite !list_alter_alter_eq. apply list_alter_ext; [|done].
  intros m _. unfold write_dimension_error. simpl. f_equal.
  rewrite !list_alter_alter_eq. apply list_alter_ext; [|done].
  intros e _. simpl. f_equal. by apply list_alter_alter_ne.
Qed.

Section Order.
Variable py_str : pyobj → string.
Variable client : LookerClient.

Lemma run_unit_eq i j model explore u models :
  run_unit py_str client i j model explore u models
  = (unit_write i j u (unit_outcome py_str client model explore u) models,
     unit_outcome py_str client model explore u).
Proof.
  unfold unit_outcome.
  rewrite <- (run_unit_outcome py_str client i j model explore u models 0 0 []).
  destruct (run_unit py_str client i j model explore u models)
    as [models' res] eqn:Hrun.
  apply run_unit_step in Hrun. simpl. f_equal.
  destruct res as [e|[error|]]; [done| |done]. by destruct u.
Qed.

Lemma gather_cons i j model explore t u rest results st :
  gather py_str client i j model explore ((t, u) :: rest) results st
  = match unit_outcome py_str client model explore u with
    | inl e => ({| rs_models := rs_models st;
                   rs_trace := rs_trace st ++ [Complete i j t] |}, inl e)
    | inr r =>
        gather py_str client i j model explore rest (<[t := r]> results)
          {| rs_models := unit_write i j u (inr r) (rs_models st);
             rs_trace := rs_trace st ++ [Complete i j t] |}
    end.
Proof.
  simpl. rewrite run_unit_eq.
  by destruct (unit_outcome py_str client model explore u) as [e|r].
Qed.

(** The result list and the hierarchy after [gather] do not depend on the
    events logged before. *)
Lemma gather_same_models i j model explore order results st sta st1 r :
  rs_models st = rs_models sta →
  gather py_str client i j model explore order results st = (st1, r) →
  ∃ st2, gather py_str client i j model explore order results sta = (st2, r)
         ∧ rs_models st2 = rs_models st1.
Proof.
  revert results st sta.
  induction order as [|[t u] order IH]; intros results st sta Heq.
  - simpl. intros [= <- <-]. eauto.
  - rewrite !gather_cons.
    destruct (unit_outcome py_str client model explore u) as [e|res].
    + intros [= <- <-]. eexists. split; [reflexivity|]. simpl. by rewrite Heq.
    + apply IH. simpl. by rewrite Heq.
Qed.

Lemma unit_write_commute i j t1 u1 t2 u2 r1 r2 (models : list Model.t) :
  t1 ≠ t2 → dimension_task (t1, u1) → dimension_task (t2, u2) →
  unit_write i j u1 (inr r1) (unit_write i j u2 (inr r2) models)
  = unit_write i j u2 (inr r2) (unit_write i j u1 (inr r1) models).
Proof.
  intros Ht [d1 Hu1] [d2 Hu2]. simpl in *. subst u1 u2.
  destruct r1 as [error1|], r2 as [error2|]; simpl; try done.
  by apply write_dimension_error_commute.
Qed.

Lemma gather_permutation i j model explore order1 order2 :
  order1 ≡ₚ order2 →
  NoDup order1.*1 → Forall dimension_task order1 →
  ∀ results st sta st1 results1,
    rs_models st = rs_models sta →
    gather py_str client i j model explore order1 results st
    = (st1, inr results1) →
    ∃ st2, gather py_str client i j model explore order2 results sta
           = (st2, inr results1)
           ∧ rs_models st2 = rs_models st1.
Proof.
  induction 1 as [|[t u] l l' Hperm IH|[t1 u1] [t2 u2] l|l l' l'' H1 IH1 H2 IH2];
    intros Hnd Hdim results st sta st1 results1 Heq.
  - simpl. intros [= <- <-]. eauto.
  - rewrite !gather_cons.
    destruct (unit_outcome py_str client model explore u) as [e|res]; [done|].
    simpl in Hnd. apply NoDup_cons in Hnd as [_ Hnd].
    apply Forall_cons in Hdim as [_ Hdim].
    apply IH; [done..|]. simpl. by rewrite Heq.
  - intros Hrun. simpl in Hnd. apply NoDup_cons in Hnd as [Hne _].
    assert (t1 ≠ t2) as Ht by (intros ->; apply Hne; left).
    apply Forall_cons in Hdim as [Hd2 Hdim]. apply Forall_cons in Hdim as [Hd1 _].
    rewrite gather_cons in Hrun. rewrite gather_cons.
    destruct (unit_outcome py_str client model explore u2) as [e|res2] eqn:H2;
      [done|].
    rewrite gather_cons in Hrun.
    destruct (unit_outcome py_str client model explore u1) as [e|res1] eqn:H1;
      [done|].
    rewrite gather_cons, H2.
    rewrite (list_insert_insert_ne results t2 t1) by done.
    eapply gather_same_models; [|exact Hrun]. simpl.
    rewrite Heq.
    by apply (unit_write_commute _ _ t1 _ t2).
  - intros Hrun.
    destruct (IH1 Hnd Hdim results st st st1 results1 eq_refl Hrun)
      as (stm & Hm & Heqm).
    assert (NoDup l'.*1) as Hnd' by by rewrite <- H1.
    assert (Forall dimension_task l') as Hdim' by by rewrite <- H1.
    destruct (IH2 Hnd' Hdim' results st sta stm results1 Heq Hm)
      as (st2 & H2' & Heq2).
    exists st2. split; [done|]. by rewrite Heq2.
Qed.

End Order.

Lemma tasks_numbers {A} (l : list A) start :
  (imap (λ n, pair (start + n)) l).*1 = seq start (length l).
Proof.
  revert start. induction l as [|x l IH]; intros start; simpl; [done|].
  rewrite Nat.add_0_r. f_equal. rewrite <- (IH (S start)). f_equal.
  apply imap_ext. intros n y _. simpl. f_equal. lia.
Qed.

Lemma tasks_NoDup {A} (l : list A) : NoDup (imap pair l).*1.
Proof.
  change (imap pair l) with (imap (λ n, pair (A:=nat) (B:=A) (0 + n)) l).
  rewrite (tasks_numbers l 0). apply NoDup_seq.
Qed.

Lemma per_dimension_tasks batch explore :
  truthy batch = false →
  Forall dimension_task (imap pair (units batch explore)).
Proof.
  intros Hb. rewrite (units_per_dimension _ _ Hb).
  apply Forall_forall. intros [t u] Htask.
  apply elem_of_lookup_imap in Htask as (t0 & u0 & [= -> ->] & Hu).
  apply list_lookup_imap_Some in Hu as (d & _ & ->). by exists d.
Qed.

Section OrderRun.
Variable py_str : pyobj → string.
Variable client : LookerClient.

Lemma _validate_explore_order i j model explore batch picks1 picks2
    st sta st1 errors :
  rs_models st = rs_models sta →
  _validate_explore py_str client i j model explore batch picks1 st
  = (st1, inr errors) →
  ∃ st2, _validate_explore py_str client i j model explore batch picks2 sta
         = (st2, inr errors)
         ∧ rs_models st2 = rs_models st1.
Proof.
  intros Heq. unfold _validate_explore. rewrite !create_tasks_spec.
  destruct (gather _ _ _ _ _ _ (completion_order picks1 _) _ _)
    as [stg [e|results1]] eqn:Hg; [done|].
  intros [= <- <-].
  assert (∃ st2,
            gather py_str client i j model explore
              (completion_order picks2 (imap pair (units batch explore)))
              (replicate (length (imap pair (units batch explore))) None)
              {| rs_models := rs_models sta;
                 rs_trace := rs_trace sta
                   ++ (submit_event i j explore <$> imap pair (units batch explore)) |}
            = (st2, inr results1)
            ∧ rs_models st2 = rs_models stg) as (st2 & Hg2 & Heq2).
  { destruct (truthy batch) eqn:Hb.
    - rewrite (units_batch _ _ Hb) in Hg |- *. simpl imap in *.
      rewrite completion_order_single in Hg |- *.
      eapply gather_same_models; [|exact Hg]. done.
    - eapply (gather_permutation py_str client i j model explore);
        [| | | |exact Hg]; [| | |done].
      + by rewrite !completion_order_perm.
      + rewrite completion_order_perm. apply tasks_NoDup.
      + rewrite completion_order_perm. by apply per_dimension_tasks. }
  rewrite Hg2. eauto.
Qed.

Lemma validate_loop_order batch sched1 sched2 work validation_errors
    st sta st1 errors :
  rs_models st = rs_models sta →
  validate_loop py_str client batch sched1 work validation_errors st
  = (st1, errors, None) →
  ∃ st2, validate_loop py_str client batch sched2 work validation_errors sta
         = (st2, errors, None)
         ∧ rs_models st2 = rs_models st1.
Proof.
  revert validation_errors st sta.
  induction work as [|[[[i j] model] explore] work IH]; intros acc st sta Heq;
    simpl.
  - intros [= <- <-]. eauto.
  - destruct (_validate_explore _ _ _ _ _ _ _ (sched1 i j) _)
      as [stv [e|errors1]] eqn:Hv; [done|].
    destruct (_validate_explore_order _ _ _ _ _ _ (sched2 i j) _ _ _ _ Heq Hv)
      as (stv2 & -> & Heqv).
    apply IH. done.
Qed.

End OrderRun.

(** X14: a run that is not aborted returns the same errors, in the same
    order, and leaves the same hierarchy, whatever the order in which the
    results of the query units arrive; with another order of completion the
    run is not aborted either. *)
Theorem validate_order_independent
    (py_str : pyobj → string) (client : LookerClient) (batch : pyobj)
    (sched1 sched2 : nat → nat → list nat) (models : list Model.t)
    (st1 : run_state) (errors : list SqlError.t) :
  validate py_str client batch sched1 models = (st1, inr errors) →
  ∃ st2, validate py_str client batch sched2 models = (st2, inr errors)
         ∧ rs_models st2 = rs_models st1.
Proof.
  unfold validate.
  destruct (validate_loop _ _ _ sched1 _ _ _) as [[sta errors1] [e|]] eqn:Hloop;
    [done|].
  intros [= <- <-].
  destruct (validate_loop_order py_str client _ _ sched2 _ _ _ _ _ _ eq_refl Hloop)
    as (st2 & -> & Heq).
  eauto.
Qed.

Lemma validate_order_independent_witness :
  ∃ st1 st2 error,
    validate Sample.py_str Sample.client (PyBool false) Sample.fifo
             [Sample.model_ax] = (st1, inr [error])
    ∧ validate Sample.py_str Sample.client (PyBool false) Sample.lifo
               [Sample.model_ax] = (st2, inr [error])
    ∧ rs_models st2 = rs_models st1
    ∧ rs_trace st1 ≠ rs_trace st2.
Proof.
  destruct (validate Sample.py_str Sample.client (PyBool false) Sample.fifo
              [Sample.model_ax]) as [st1 res] eqn:Hrun.
  assert (res = inr [SqlError.mk "a/d3" (PyStr "SELECT 1") (Some 41%Z)
                       (PyStr "column not found") (Some "https://looker/d3")])
    as -> by (by vm_compute in Hrun; injection Hrun as _ <-).
  destruct (validate_order_independent Sample.py_str Sample.client (PyBool false)
              Sample.fifo Sample.lifo [Sample.model_ax] _ _ Hrun)
    as (st2 & Hrun2 & Heq).
  exists st1, st2. eexists. split; [reflexivity|]. split; [exact Hrun2|].
  split; [exact Heq|].
  vm_compute in Hrun, Hrun2. injection Hrun as <-. injection Hrun2 as <-.
  discriminate.
Defined.

(** ** Runs without findings *)

Section Clean.
Variable py_str : pyobj → string.
Variable client : LookerClient.

Lemma gather_clean i j model explore order n st :
  (∀ u, unit_outcome py_str client model explore u = inr None) →
  gather py_str client i j model explore order (replicate n None) st
  = ({| rs_models := rs_models st;
        rs_trace := rs_trace st ++ (complete_event i j <$> order) |},
     inr (replicate n None)).
Proof.
  intros Hclean. revert st. induction order as [|[t u] order IH]; intros st.
  - simpl. rewrite app_nil_r. by destruct st.
  - rewrite gather_cons, Hclean, insert_replicate, IH. simpl.
    by rewrite <- app_assoc.
Qed.

Lemma omap_replicate_None {A} n : omap id (replicate n (@None A)) = [].
Proof. induction n; simpl; done. Qed.

Lemma validate_loop_clean batch sched work validation_errors st :
  (∀ model explore u, unit_outcome py_str client model explore u = inr None) →
  ∃ trace,
    validate_loop py_str client batch sched work validation_errors st
    = ({| rs_models := rs_models st; rs_trace := trace |}, validation_errors, None).
Proof.
  intros Hclean. revert validation_errors st.
  induction work as [|[[[i j] model] explore] work IH]; intros acc st; simpl.
  - exists (rs_trace st). by destruct st.
  - unfold _validate_explore. rewrite create_tasks_spec, gather_clean by done.
    rewrite omap_replicate_None. unfold ok. simpl. rewrite app_nil_r.
    match goal with
    | |- ∃ trace, validate_loop _ _ _ _ _ _ ?st' = _ =>
        destruct (IH acc st') as [trace Htrace]
    end.
    exists trace. by rewrite Htrace.
Qed.

End Clean.

(** X12: when every query comes back as a list, a run returns no error and
    leaves the hierarchy exactly as it was, in either mode and for every
    order of completion. *)
Theorem validate_clean_run
    (py_str : pyobj → string) (client : LookerClient) (batch : pyobj)
    (sched : nat → nat → list nat) (models : list Model.t) :
  (∀ model_name explore_name fields,
     ∃ rows, query_result client model_name explore_name fields = inr (PyList rows)) →
  ∃ trace,
    validate py_str client batch sched models
    = ({| rs_models := models; rs_trace := trace |}, inr []).
Proof.
  intros Hlist.
  assert (∀ model explore u,
            unit_outcome py_str client model explore u = inr None) as Hclean.
  { intros model explore u. unfold unit_outcome. destruct u as [|k d]; simpl.
    - unfold _query_explore.
      by destruct (Hlist (Model.name model) (Explore.name explore)
                     (Dimension.name <$> Explore.dimensions explore)) as [rows ->].
    - unfold _query_dimension.
      by destruct (Hlist (Model.name model) (Explore.name explore)
                     [Dimension.name d]) as [rows ->]. }
  unfold validate.
  destruct (validate_loop_clean py_str client batch sched (explore_work models) []
              {| rs_models := models; rs_trace := [] |} Hclean) as [trace ->].
  by exists trace.
Qed.

Lemma validate_clean_run_witness :
  ∃ trace,
    validate Sample.py_str Sample.healthy_client (PyBool false) Sample.lifo
             [Sample.model_a]
    = ({| rs_models := [Sample.model_a]; rs_trace := trace |}, inr []).
Proof.
  apply (validate_clean_run Sample.py_str Sample.healthy_client).
  intros model_name explore_name fields. exists []. reflexivity.
Defined.

(** X13: in per-dimension mode, a hierarchy whose explores have no dimension
    is validated without any query: the run returns no error, logs no
    event and leaves the hierarchy as it was, whatever the service would
    answer. *)
Theorem validate_without_dimensions
    (py_str : pyobj → string) (client : LookerClient) (batch : pyobj)
    (sched : nat → nat → list nat) (models : list Model.t) :
  truthy batch = false →
  Forall (λ w, Explore.dimensions w.2 = []) (explore_work models) →
  validate py_str client batch sched models
  = ({| rs_models := models; rs_trace := [] |}, inr []).
Proof.
  intros Hb Hbare. unfold validate.
  assert (∀ work acc st,
            Forall (λ w : nat * nat * Model.t * Explore.t,
                      Explore.dimensions w.2 = []) work →
            validate_loop py_str client batch sched work acc st = (st, acc, None))
    as Hloop.
  { induction work as [|[[[i j] model] explore] work IH]; intros acc st Hall;
      simpl; [done|].
    apply Forall_cons in Hall as [He Hall]. simpl in He.
    unfold _validate_explore. rewrite (units_per_dimension _ _ Hb), He. simpl.
    unfold ok. rewrite app_nil_r. destruct st. by apply IH. }
  by rewrite Hloop.
Qed.

Lemma validate_without_dimensions_witness :
  validate Sample.py_str Sample.careless_client (PyStr EmptyString) Sample.fifo
           [Sample.model_bare]
  = ({| rs_models := [Sample.model_bare]; rs_trace := [] |}, inr []).
Proof.
  apply validate_without_dimensions; [reflexivity|].
  repeat constructor.
Defined.

(** ** The error parameters of an API result *)

(** X8: of a payload whose first error has a message and a location with an
    integer line, and which has the SQL text, the extracted parameters are
    that SQL text, that message and the line number less one; the errors
    after the first are not looked at. *)
Theorem error_params_line_number
    (d error loc : list (string * pyobj)) (more : list pyobj)
    (message sql : pyobj) (line : Z) :
  dict_get "errors" d = Some (PyList (PyDict error :: more)) →
  dict_get "message_details" error = Some message →
  dict_get "sql_error_loc" error = Some (PyDict loc) →
  dict_get "line" loc = Some (PyInt line) →
  dict_get "sql" d = Some sql →
  _get_error_from_api_result (PyDict d)
  = inr {| ep_sql := sql; ep_line_number := Some (line - 1)%Z;
           ep_message := message |}.
Proof.
  intros Herrors Hmessage Hloc Hline Hsql.
  unfold _get_error_from_api_result. simpl.
  rewrite Herrors. simpl. rewrite Hmessage. simpl. rewrite Hloc. simpl.
  destruct loc as [|entry loc']; [done|]. rewrite Hline. simpl.
  by rewrite Hsql.
Qed.

Lemma error_params_line_number_witness :
  _get_error_from_api_result Sample.error_payload
  = inr {| ep_sql := PyStr "SELECT 1"; ep_line_number := Some (42 - 1)%Z;
           ep_message := PyStr "column not found" |}.
Proof.
  eapply (error_params_line_number _ _ _ []); reflexivity.
Defined.

(** X9: of a payload whose first error has a message but no location, or a
    location that is [None] or empty, the extracted line number is [None];
    the SQL text and the message are extracted all the same. *)
Theorem error_params_without_location
    (d error : list (string * pyobj)) (more : list pyobj)
    (message sql : pyobj) :
  dict_get "errors" d = Some (PyList (PyDict error :: more)) →
  dict_get "message_details" error = Some message →
  truthy (default PyNone (dict_get "sql_error_loc" error)) = false →
  dict_get "sql" d = Some sql →
  _get_error_from_api_result (PyDict d)
  = inr {| ep_sql := sql; ep_line_number := None; ep_message := message |}.
Proof.
  intros Herrors Hmessage Hloc Hsql.
  unfold _get_error_from_api_result. simpl.
  rewrite Herrors. simpl. rewrite Hmessage. simpl. rewrite Hloc. simpl.
  by rewrite Hsql.
Qed.

Lemma error_params_without_location_witness :
  _get_error_from_api_result
    (PyDict (("sql", PyStr "SELECT 1") :: Sample.payload_without_sql))
  = inr {| ep_sql := PyStr "SELECT 1"; ep_line_number := None;
           ep_message := PyStr "column not found" |}.
Proof.
  eapply (error_params_without_location _ _ []); reflexivity.
Defined.

Lemma getitem_raises obj key e :
  getitem obj key = inl e → e = KeyError ∨ e = TypeError.
Proof.
  destruct obj as [| | | | |d]; simpl; try (intros [= <-]; auto).
  destruct (dict_get key d); [done|]. intros [= <-]. auto.
Qed.

Lemma getitem_ok obj key v :
  getitem obj key = inr v → ∃ d, obj = PyDict d ∧ dict_get key d = Some v.
Proof.
  destruct obj as [| | | | |d]; simpl; try done.
  destruct (dict_get key d) eqn:Hd; [|done]. intros [= <-]. eauto.
Qed.

(** Whatever the API result, the extraction raises no exception but
    [KeyError], [IndexError] and [TypeError]. *)
Lemma error_params_raises result e :
  _get_error_from_api_result result = inl e →
  e = KeyError ∨ e = IndexError ∨ e = TypeError.
Proof.
  unfold _get_error_from_api_result.
  destruct (getitem result "errors") as [e1|errors] eqn:H1; simpl.
  { intros [= <-]. apply getitem_raises in H1. tauto. }
  destruct (getitem0 errors) as [e2|error] eqn:H2; simpl.
  { intros [= <-]. destruct errors as [| | |[|c s]|[|x l]|entries]; simpl in H2;
      try discriminate; injection H2 as <-; auto. }
  destruct (getitem error "message_details") as [e3|message] eqn:H3; simpl.
  { intros [= <-]. apply getitem_raises in H3. tauto. }
  apply getitem_ok in H3 as (derr & -> & _). simpl.
  destruct (truthy _); simpl.
  - destruct (dict_get "sql_error_loc" derr) as [loc|]; simpl;
      [|intros [= <-]; auto].
    destruct (getitem loc "line") as [e4|line] eqn:H4; simpl.
    { intros [= <-]. apply getitem_raises in H4. tauto. }
    destruct (minus_one line) as [e5|n] eqn:H5; simpl.
    { intros [= <-]. destruct line; simpl in H5; try discriminate;
        injection H5 as <-; auto. }
    destruct (getitem result "sql") as [e6|sql] eqn:H6; simpl; [|done].
    intros [= <-]. apply getitem_raises in H6. tauto.
  - destruct (getitem result "sql") as [e6|sql] eqn:H6; simpl; [|done].
    intros [= <-]. apply getitem_raises in H6. tauto.
Qed.

(** X10: a unit whose result is a dict with a non-empty ["errors"] but
    without the key ["sql"] ends in a built-in [KeyError], [IndexError] or
    [TypeError], not in a [FonzException], returns no [SqlError] and
    writes nothing to the hierarchy. *)
Theorem payload_without_sql_raises
    (py_str : pyobj → string) (client : LookerClient) (i j : nat)
    (model : Model.t) (explore : Explore.t) (u : query_unit)
    (models : list Model.t) (d : list (string * pyobj)) :
  query_result client (Model.name model) (Explore.name explore)
               (unit_fields explore u) = inr (PyDict d) →
  truthy (default PyNone (dict_get "errors" d)) = true →
  dict_get "sql" d = None →
  ∃ e, run_unit py_str client i j model explore u models = (models, inl e)
       ∧ (e = KeyError ∨ e = IndexError ∨ e = TypeError).
Proof.
  intros Hq Ht Hsql.
  destruct (_get_error_from_api_result (PyDict d)) as [e|params] eqn:Hp.
  - exists e. split; [|by eapply error_params_raises].
    destruct u as [|k dimension]; simpl in *.
    + unfold _query_explore. by rewrite Hq, Ht, Hp.
    + unfold _query_dimension. by rewrite Hq, Ht, Hp.
  - exfalso. unfold _get_error_from_api_result in Hp.
    destruct (getitem (PyDict d) "errors") as [?|errors]; simpl in Hp; [done|].
    destruct (getitem0 errors) as [?|error]; simpl in Hp; [done|].
    destruct (getitem error "message_details") as [?|message]; simpl in Hp;
      [done|].
    destruct (py_get error "sql_error_loc") as [?|loc]; simpl in Hp; [done|].
    destruct (if truthy loc then _ else _) as [?|line_number]; simpl in Hp;
      [done|].
    by rewrite Hsql in Hp.
Qed.

Lemma payload_without_sql_raises_witness :
  ∃ e, run_unit Sample.py_str Sample.careless_client 0 0 Sample.model_a
         (Sample.explore "x") ExploreUnit [Sample.model_a]
       = ([Sample.model_a], inl e)
       ∧ (e = KeyError ∨ e = IndexError ∨ e = TypeError).
Proof.
  apply (payload_without_sql_raises Sample.py_str Sample.careless_client 0 0
           Sample.model_a (Sample.explore "x") ExploreUnit [Sample.model_a]
           Sample.payload_without_sql); reflexivity.
Defined.

(** X11: in per-dimension mode the path of an error names the model and the
    dimension but not the explore: two failed units of one model whose
    dimensions have the same name, in whatever explores, return errors with
    the same path. *)
Theorem dimension_paths_collide
    (py_str : pyobj → string) (client : LookerClient)
    (i j1 k1 j2 k2 : nat) (model : Model.t) (explore1 explore2 : Explore.t)
    (dimension1 dimension2 : Dimension.t) (models1 models2 models1' models2' : list Model.t)
    (error1 error2 : SqlError.t) :
  Dimension.name dimension1 = Dimension.name dimension2 →
  _query_dimension py_str client i j1 k1 model explore1 dimension1 models1
  = (models1', inr (Some error1)) →
  _query_dimension py_str client i j2 k2 model explore2 dimension2 models2
  = (models2', inr (Some error2)) →
  SqlError.path error1 = SqlError.path error2.
Proof.
  intros Hname. unfold _query_dimension.
  destruct (query_result _ _ _ [Dimension.name dimension1])
    as [?|[| | | | |d1]]; try done.
  destruct (truthy _); [|done].
  destruct (_get_error_from_api_result _); [done|]. intros [= _ <-].
  destruct (query_result _ _ _ [Dimension.name dimension2])
    as [?|[| | | | |d2]]; try done.
  destruct (truthy _); [|done].
  destruct (_get_error_from_api_result _); [done|]. intros [= _ <-].
  simpl. by rewrite Hname.
Qed.

Lemma dimension_paths_collide_witness :
  ∃ models1' models2' error1 error2,
    _query_dimension Sample.py_str Sample.client 0 0 1 Sample.model_a
      (Sample.explore "x") (Sample.dimension "d3") [Sample.model_a]
    = (models1', inr (Some error1))
    ∧ _query_dimension Sample.py_str Sample.client 0 1 1 Sample.model_a
        (Sample.explore "z") (Sample.dimension "d3") [Sample.model_a]
      = (models2', inr (Some error2))
    ∧ SqlError.path error1 = SqlError.path error2.
Proof.
  eexists _, _, _, _. split; [reflexivity|]. split; [reflexivity|].
  eapply (dimension_paths_collide Sample.py_str Sample.client 0 0 1 1 1
            Sample.model_a (Sample.explore "x") (Sample.explore "z")
            (Sample.dimension "d3") (Sample.dimension "d3")
            [Sample.model_a] [Sample.model_a]); reflexivity.
Defined.

(** ** Selectors as text *)

Lemma join_split sep s : join (String sep EmptyString) (split sep s) = s.
Proof.
  induction s as [|c s IH]; simpl; [done|].
  pose proof (split_nonempty sep s) as Hne.
  destruct (Ascii.eqb_spec c sep) as [->|Hc].
  - destruct (split sep s) as [|w ws]; [done|]. simpl in *. by rewrite IH.
  - destruct (split sep s) as [|w ws]; [done|]. simpl in *.
    destruct ws as [|w' ws]; simpl in *; by rewrite <- IH.
Qed.

Lemma count_sep_app sep s1 s2 :
  count_sep sep (s1 +:+ s2) = count_sep sep s1 + count_sep sep s2.
Proof. induction s1 as [|c s1 IH]; simpl; [done|]. rewrite IH. lia. Qed.

Lemma split_no_sep sep s : count_sep sep s = 0 → split sep s = [s].
Proof.
  induction s as [|c s IH]; simpl; [done|].
  destruct (Ascii.eqb c sep); [done|]. intros Hs. by rewrite IH.
Qed.

Lemma split_app_sep sep s1 s2 :
  count_sep sep s1 = 0 →
  split sep (s1 +:+ String sep s2) = s1 :: split sep s2.
Proof.
  induction s1 as [|c s1 IH]; simpl.
  - intros _. by rewrite Ascii.eqb_refl.
  - destruct (Ascii.eqb c sep); [done|]. intros Hs. by rewrite IH.
Qed.

(** A selector splits into [model] and [explore] exactly when it is the
    text [model.explore] with no further dot. *)
Lemma split_selector selector model explore :
  split dot selector = [model; explore]
  ↔ selector = model +:+ "." +:+ explore ∧ count_sep dot selector = 1.
Proof.
  split.
  - intros Hs. split.
    + rewrite <- (join_split dot selector), Hs. reflexivity.
    + pose proof (split_length dot selector) as Hl. rewrite Hs in Hl.
      simpl in Hl. lia.
  - intros [-> Hc]. change ("." +:+ explore) with (String dot explore) in *.
    rewrite count_sep_app in Hc. simpl in Hc.
    rewrite split_app_sep by lia. by rewrite split_no_sep by lia.
Qed.

(** X1: after a successful parse, the explore name [e] is selected for the
    model name [m] exactly when the text [m.e] is among the selectors, and
    [m] is a key of the selection exactly when some selector is [m.e] for
    some [e]: nothing is added, nothing is lost. *)
Theorem parse_selectors_pairs (selectors : list string) (selection : Selection) :
  parse_selectors selectors = inr selection →
  (∀ m e, e ∈ sel_get selection m ↔ (m +:+ "." +:+ e) ∈ selectors)
  ∧ (∀ m, m ∈ dom selection ↔ ∃ e, (m +:+ "." +:+ e) ∈ selectors).
Proof.
  intros Hp.
  pose proof (parse_selectors_from_shape ∅ selectors) as Hshape.
  fold (parse_selectors selectors) in Hshape. rewrite Hp in Hshape.
  rewrite Forall_forall in Hshape.
  split.
  - intros m e. rewrite (parse_selectors_from_get _ _ _ Hp). split.
    + intros [Hin|(s & Hs & Hsplit)]; [by apply not_elem_of_empty in Hin|].
      apply split_selector in Hsplit as [-> _]. done.
    + intros Hin. right. eexists. split; [exact Hin|].
      apply split_selector. split; [done|]. by apply Hshape.
  - intros m. rewrite (parse_selectors_from_dom _ _ _ Hp). split.
    + intros [Hin|(s & e & Hs & Hsplit)].
      { rewrite dom_empty_L in Hin. by apply not_elem_of_empty in Hin. }
      apply split_selector in Hsplit as [-> _]. eauto.
    + intros [e Hin]. right. eexists _, e. split; [exact Hin|].
      apply split_selector. split; [done|]. by apply Hshape.
Qed.

Lemma parse_selectors_pairs_witness :
  ∃ selection,
    parse_selectors ["a.*"; "b.x"] = inr selection
    ∧ (∀ m e, e ∈ sel_get selection m ↔ (m +:+ "." +:+ e) ∈ ["a.*"; "b.x"]).
Proof.
  exists {[ "a" := {[ "*" ]}; "b" := {[ "x" ]} ]}.
  assert (parse_selectors ["a.*"; "b.x"]
          = inr {[ "a" := {[ "*" ]}; "b" := {[ "x" ]} ]}) as Hp
    by (vm_compute; reflexivity).
  split; [exact Hp|].
  exact (proj1 (parse_selectors_pairs _ _ Hp)).
Defined.

(** X2: the parsed selection depends only on which selectors are given: two
    lists with the same members, in whatever order and however often,
    parse to the same selection. *)
Theorem parse_selectors_set (selectors selectors' : list string)
    (selection : Selection) :
  (∀ s, s ∈ selectors ↔ s ∈ selectors') →
  parse_selectors selectors = inr selection →
  parse_selectors selectors' = inr selection.
Proof. apply parse_selectors_same_elements. Qed.

Lemma parse_selectors_set_witness :
  parse_selectors ["b.x"; "a.*"; "b.x"; "a.*"]
  = inr {[ "a" := {[ "*" ]}; "b" := {[ "x" ]} ]}.
Proof.
  apply (parse_selectors_set ["a.*"; "b.x"]).
  - intros s. rewrite !elem_of_cons, !elem_of_nil. tauto.
  - vm_compute. reflexivity.
Defined.

(** ** Choosing by name, in full *)

Section SelectFull.
Context {A : Type} {named : Named A}.

Lemma select_inr_filter project_name choices (select_from selected : list A) :
  _select project_name choices select_from = inr selected →
  (∀ c, c ∈ choices → c ∈ name_of <$> select_from)
  ∧ selected = filter (λ each, name_of each ∈ choices) select_from.
Proof.
  intros Hsel.
  assert (∀ c, c ∈ choices → c ∈ name_of <$> select_from) as Hall.
  { unfold _select in Hsel. case_decide as Hd; [|by destruct select_from].
    intros c Hc. apply dec_stable. intros Hnc. set_solver. }
  split; [exact Hall|].
  rewrite (select_found _ _ _ Hall) in Hsel. by injection Hsel as <-.
Qed.

(** X3: [_select] returns exactly when every chosen name is the name of an
    available object; it then returns the available objects with a chosen
    name, all of them and in their order, so none for no choice; it raises
    exactly when a chosen name is missing. *)
Theorem select_returns_chosen (project_name : string) (choices : list string)
    (select_from : list A) :
  match _select project_name choices select_from with
  | inr selected =>
      (∀ c, c ∈ choices → c ∈ name_of <$> select_from)
      ∧ selected = filter (λ each, name_of each ∈ choices) select_from
      ∧ selected `sublist_of` select_from
  | inl _ => ∃ c, c ∈ choices ∧ c ∉ name_of <$> select_from
  end.
Proof.
  destruct (_select project_name choices select_from) as [e|selected] eqn:Hsel.
  - destruct (decide (Forall (λ c, c ∈ name_of <$> select_from) choices))
      as [Hall|Hnot].
    + rewrite Forall_forall in Hall. by rewrite (select_found _ _ _ Hall) in Hsel.
    + apply not_Forall_Exists in Hnot; [|apply _].
      apply Exists_exists in Hnot as (c & Hc & Hnc). eauto.
  - apply select_inr_filter in Hsel as [Hall ->].
    split; [done|]. split; [done|]. apply sublist_filter.
Qed.

(** X4: when a chosen name is missing and there is something to choose from,
    [_select] raises the [FonzException] whose message starts with the
    class name, in the plural unless exactly one name is missing, lists
    every missing name exactly once, separated by commas, and names the
    project. *)
Theorem select_lists_missing (project_name : string) (choices : list string)
    (select_from : list A) (c : string) :
  select_from ≠ [] → c ∈ choices → c ∉ name_of <$> select_from →
  ∃ missing : list string,
    NoDup missing
    ∧ (∀ x, x ∈ missing ↔ x ∈ choices ∧ x ∉ name_of <$> select_from)
    ∧ _select project_name choices select_from
      = inl (FonzException
               (class_name A +:+
                (if decide (length missing = 1) then EmptyString else "s") +:+
                " " +:+ join ", " missing +:+
                " not found in LookML for project '" +:+ project_name +:+ "'.")).
Proof. apply select_missing. Qed.

End SelectFull.

Lemma select_lists_missing_witness :
  ∃ missing : list string,
    NoDup missing
    ∧ (∀ x, x ∈ missing ↔ x ∈ ["zzz"; "a"; "yyy"]
                            ∧ x ∉ name_of <$> [Sample.model_a])
    ∧ _select "p" ["zzz"; "a"; "yyy"] [Sample.model_a]
      = inl (FonzException
               ("Model" +:+
                (if decide (length missing = 1) then EmptyString else "s") +:+
                " " +:+ join ", " missing +:+
                " not found in LookML for project '" +:+ "p" +:+ "'.")).
Proof.
  assert (name_of <$> [Sample.model_a] = ["a"]) as Hnames by reflexivity.
  exact (select_lists_missing "p" ["zzz"; "a"; "yyy"] [Sample.model_a] "zzz"
           ltac:(discriminate) ltac:(left)
           ltac:(rewrite Hnames; intros Hin;
                 apply list_elem_of_singleton in Hin; discriminate)).
Defined.

(** ** The order and the content of the built hierarchy *)

Lemma filter_fmap {A B} (f : A → B) (P : B → Prop) `{!∀ y, Decision (P y)}
    (l : list A) :
  filter P (f <$> l) = f <$> filter (λ x, P (f x)) l.
Proof.
  induction l as [|x l IH]; [done|].
  rewrite fmap_cons, !filter_cons, IH.
  destruct (decide (P (f x))); by rewrite ?fmap_cons.
Qed.

Lemma filter_ext_elem {A} (P Q : A → Prop) `{!∀ x, Decision (P x)}
    `{!∀ x, Decision (Q x)} (l : list A) :
  (∀ x, x ∈ l → P x ↔ Q x) → filter P l = filter Q l.
Proof.
  induction l as [|x l IH]; intros Hext; [done|].
  rewrite !filter_cons, IH by (intros y Hy; apply Hext; by right).
  destruct (decide (P x)) as [HP|HP], (decide (Q x)) as [HQ|HQ]; try done.
  - exfalso. apply HQ, (Hext x); [left|done].
  - exfalso. apply HP, (Hext x); [left|done].
Qed.

Lemma load_dimensions_name client model_name explore :
  Explore.name (load_dimensions client model_name explore) = Explore.name explore.
Proof. by rewrite load_dimensions_spec. Qed.

Lemma build_models_shape (P : Model.t → Prop) client project_name selection
    (selected_models built : list Model.t) :
  Forall P selected_models →
  build_models client project_name selection selected_models = inr built →
  Forall2 (λ m m',
             P m ∧ Model.name m' = Model.name m
             ∧ Model.project m' = Model.project m
             ∧ (Explore.name <$> Model.explores m')
               `sublist_of` (Explore.name <$> Model.explores m))
          selected_models built.
Proof.
  revert selection built.
  induction selected_models as [|model rest IH]; intros selection built HP; simpl.
  - intros [= <-]. constructor.
  - apply Forall_cons in HP as [Hm HP].
    destruct (_select _ _ _) as [e|selected_explores] eqn:Hsel; [done|]. simpl.
    destruct (build_models _ _ _ rest) as [e|rest'] eqn:Hrest; [done|]. simpl.
    intros [= <-]. constructor; [|by eapply IH].
    split; [done|]. split; [done|]. split; [done|]. simpl.
    apply select_inr_filter in Hsel as [_ ->].
    rewrite <- list_fmap_compose.
    rewrite (list_fmap_ext _ Explore.name) by
      (intros k x _; apply load_dimensions_name).
    apply fmap_sublist, sublist_filter.
Qed.

(** X5: the built hierarchy keeps the order of the listing: its models are,
    in order, models of the listing that belong to the project, and the
    explores of each are, in order, explores the listing gives for that
    model; nothing is re-sorted and nothing is added. *)
Theorem build_project_keeps_order (client : LookerClient) (project : string)
    (selectors : list string) (models : list Model.t) :
  build_project client project selectors = inr models →
  ∃ listed,
    listed `sublist_of` get_models client
    ∧ Forall2 (λ listing model,
                 Model.json_project listing = project
                 ∧ Model.name model = Model.json_name listing
                 ∧ Model.project model = project
                 ∧ (Explore.name <$> Model.explores model)
                   `sublist_of`
                   (Explore.json_name <$> Model.json_explores listing))
              listed models.
Proof.
  unfold build_project.
  destruct (parse_selectors selectors) as [e|selection]; [done|]. simpl.
  destruct (_select _ _ _) as [e|selected_models] eqn:Hsel; [done|]. simpl.
  intros Hbuild.
  apply select_inr_filter in Hsel as [_ Hsel].
  rewrite !filter_fmap in Hsel.
  match type of Hsel with
  | _ = Model.from_json <$> ?l => set (listed := l) in *
  end.
  exists listed. split.
  { subst listed. etrans; apply sublist_filter. }
  assert (Forall (λ m, Model.project m = project) selected_models) as Hproj.
  { rewrite Hsel. apply Forall_fmap, Forall_forall. intros mj Hmj. subst listed.
    apply list_elem_of_filter in Hmj as [_ Hmj].
    by apply list_elem_of_filter in Hmj as [Hmj _]. }
  pose proof (build_models_shape _ _ _ _ _ _ Hproj Hbuild) as Hshape.
  rewrite Hsel in Hshape. apply Forall2_fmap_l in Hshape.
  eapply Forall2_impl; [exact Hshape|].
  intros mj m (Hp & Hn & Hpr & Hex). simpl in *.
  split; [done|]. split; [done|]. split; [by rewrite Hpr|].
  by rewrite <- list_fmap_compose in Hex.
Qed.

Lemma build_project_keeps_order_witness :
  ∃ listed,
    listed `sublist_of` get_models Sample.client
    ∧ Forall2 (λ listing model,
                 Model.json_project listing = "p"
                 ∧ Model.name model = Model.json_name listing
                 ∧ Model.project model = "p"
                 ∧ (Explore.name <$> Model.explores model)
                   `sublist_of`
                   (Explore.json_name <$> Model.json_explores listing))
              listed [Sample.model_a].
Proof.
  apply (build_project_keeps_order Sample.client "p" ["a.*"]).
  vm_compute. reflexivity.
Defined.

(** ** What the selectors select *)

Lemma expand_fold_get (X : gset string) (project_models : list Model.t)
    (selection : Selection) m :
  sel_get (foldl (λ sel model,
                    <[Model.name model := sel_get sel (Model.name model) ∪ X]> sel)
                 selection project_models) m
  = if decide (m ∈ Model.name <$> project_models)
    then sel_get selection m ∪ X else sel_get selection m.
Proof.
  revert selection.
  induction project_models as [|model rest IH]; intros selection.
  - reflexivity.
  - cbn [foldl]. rewrite fmap_cons, IH, sel_get_insert.
    repeat case_decide; subst; try set_solver.
Qed.

Lemma expand_fold_dom (X : gset string) (project_models : list Model.t)
    (selection : Selection) :
  dom (foldl (λ sel model,
                <[Model.name model := sel_get sel (Model.name model) ∪ X]> sel)
             selection project_models)
  = dom selection ∪ list_to_set (Model.name <$> project_models).
Proof.
  revert selection.
  induction project_models as [|model rest IH]; intros selection; simpl.
  - set_solver.
  - rewrite IH, dom_insert_L. set_solver.
Qed.

Lemma sel_get_delete (selection : Selection) k m :
  sel_get (delete k selection) m = if decide (k = m) then ∅ else sel_get selection m.
Proof.
  unfold sel_get. rewrite lookup_delete. by case_decide.
Qed.

Lemma sel_get_not_dom (selection : Selection) m :
  m ∉ dom selection → sel_get selection m = ∅.
Proof.
  intros Hm. unfold sel_get. by rewrite (not_elem_of_dom_1 _ _ Hm).
Qed.

(** After the model wildcard is expanded, a model of the project has the
    explore names given for it and those given for the wildcard. *)
Lemma expand_models_get (selection : Selection) (project_models : list Model.t) m :
  m ∈ Model.name <$> project_models →
  sel_get (expand_models selection project_models) m
  = chosen_explores selection m.
Proof.
  intros Hm. unfold expand_models, chosen_explores. case_decide as Hstar.
  - rewrite expand_fold_get, decide_True, sel_get_delete by done.
    case_decide; [subst|done]. set_solver.
  - set_solver.
Qed.

Lemma expand_models_dom (selection : Selection) (project_models : list Model.t) m :
  m ∈ Model.name <$> project_models →
  m ∈ dom (expand_models selection project_models)
  ↔ m ∈ dom selection ∨ star ∈ dom selection.
Proof.
  intros Hm. unfold expand_models. case_decide as Hstar.
  - rewrite expand_fold_dom, dom_delete_L. set_solver.
  - tauto.
Qed.

Lemma expand_explores_elem (X : gset string) model explore :
  explore ∈ Model.explores model →
  Explore.name explore ∈ expand_explores X model
  ↔ Explore.name explore ∈ X ∨ star ∈ X.
Proof.
  intros He. unfold expand_explores.
  assert (Explore.name explore
            ∈ (list_to_set (Explore.name <$> Model.explores model) : gset string))
    as Hname by (apply elem_of_list_to_set, list_elem_of_fmap; eauto).
  case_decide; set_solver.
Qed.

(** With model names that differ, the loop over the selected models reads
    for every model the set the selection had for it at the start. *)
Lemma build_models_unique client project_name (selection : Selection)
    (selected_models built : list Model.t) :
  NoDup (Model.name <$> selected_models) →
  build_models client project_name selection selected_models = inr built →
  built
  = (λ m, Model.set_explores
            (load_dimensions client (Model.name m)
               <$> filter (λ e, Explore.name e
                                  ∈ expand_explores
                                      (sel_get selection (Model.name m)) m)
                     (Model.explores m)) m)
      <$> selected_models.
Proof.
  revert selection built.
  induction selected_models as [|model rest IH]; intros selection built Hnd; simpl.
  - by intros [= <-].
  - apply NoDup_cons in Hnd as [Hhead Hnd].
    destruct (_select _ _ _) as [e|selected_explores] eqn:Hsel; [done|]. simpl.
    destruct (build_models _ _ _ rest) as [e|rest'] eqn:Hrest; [done|]. simpl.
    intros [= <-]. f_equal.
    + apply select_inr_filter in Hsel as [_ ->]. do 2 f_equal.
      apply filter_ext_elem. intros e _. simpl. by rewrite elem_of_elements.
    + rewrite (IH _ _ Hnd Hrest). apply list_fmap_ext. intros k m Hm.
      rewrite sel_get_insert, decide_False; [done|].
      intros Heq. apply Hhead. rewrite Heq.
      apply list_elem_of_fmap. exists m. split; [done|].
      by eapply list_elem_of_lookup_2.
Qed.

(** X6: when the models of the project have different names, a successful
    build selects exactly this: the models of the project named in the
    selection, or all of them if the selection has the model wildcard, in
    listing order; and of each such model the explores whose name is
    chosen for the model or for the model wildcard, or all of them if the
    explore wildcard is chosen, in listing order, each with the dimensions
    of its listing that are not ignored. *)
Theorem build_project_selects (client : LookerClient) (project : string)
    (selectors : list string) (selection : Selection) (models : list Model.t) :
  parse_selectors selectors = inr selection →
  NoDup (Model.name
           <$> filter (λ m, Model.project m = project)
                 (Model.from_json <$> get_models client)) →
  build_project client project selectors = inr models →
  models
  = (λ m, Model.set_explores
            (load_dimensions client (Model.name m)
               <$> filter (λ e, Explore.name e
                                  ∈ chosen_explores selection (Model.name m)
                                ∨ star ∈ chosen_explores selection (Model.name m))
                     (Model.explores m)) m)
      <$> filter (λ m, Model.name m ∈ dom selection ∨ star ∈ dom selection)
            (filter (λ m, Model.project m = project)
               (Model.from_json <$> get_models client)).
Proof.
  intros Hp. unfold build_project. rewrite Hp. simpl.
  set (project_models := filter (λ m, Model.project m = project)
                           (Model.from_json <$> get_models client)).
  intros Hnd.
  destruct (_select _ _ _) as [e|selected_models] eqn:Hsel; [done|]. simpl.
  intros Hbuild. apply select_inr_filter in Hsel as [_ Hsel].
  assert (selected_models
          = filter (λ m, Model.name m ∈ dom selection ∨ star ∈ dom selection)
              project_models) as Hselected.
  { rewrite Hsel. apply filter_ext_elem. intros m Hm. simpl.
    rewrite elem_of_elements. apply expand_models_dom.
    apply list_elem_of_fmap. eauto. }
  assert (NoDup (Model.name <$> selected_models)) as Hnd'.
  { apply (sublist_NoDup _ (Model.name <$> project_models)); [exact Hnd|].
    rewrite Hselected.
    apply fmap_sublist, sublist_filter. }
  rewrite (build_models_unique _ _ _ _ _ Hnd' Hbuild), Hselected.
  apply list_fmap_ext. intros k m Hm.
  apply list_elem_of_lookup_2, list_elem_of_filter in Hm as [_ Hm].
  do 2 f_equal. apply filter_ext_elem. intros e He.
  rewrite expand_explores_elem by done.
  rewrite expand_models_get; [done|]. apply list_elem_of_fmap. eauto.
Qed.

Lemma build_project_selects_witness :
  NoDup (Model.name
           <$> filter (λ m, Model.project m = "p")
                 (Model.from_json <$> get_models Sample.client))
  ∧ [Sample.model_ax]
    = (λ m, Model.set_explores
              (load_dimensions Sample.client (Model.name m)
                 <$> filter (λ e, Explore.name e
                                    ∈ chosen_explores {[ "a" := {[ "x" ]} ]}
                                        (Model.name m)
                                  ∨ star ∈ chosen_explores {[ "a" := {[ "x" ]} ]}
                                             (Model.name m))
                       (Model.explores m)) m)
        <$> filter (λ m, Model.name m ∈ dom ({[ "a" := {[ "x" ]} ]} : Selection)
                         ∨ star ∈ dom ({[ "a" := {[ "x" ]} ]} : Selection))
              (filter (λ m, Model.project m = "p")
                 (Model.from_json <$> get_models Sample.client)).
Proof.
  assert (NoDup (Model.name
                   <$> filter (λ m, Model.project m = "p")
                         (Model.from_json <$> get_models Sample.client)))
    as Hnd by (vm_compute; apply NoDup_singleton).
  split; [exact Hnd|].
  apply (build_project_selects Sample.client "p" ["a.x"]); [|exact Hnd|];
    vm_compute; reflexivity.
Defined.

(** ** Unknown models *)

Lemma expand_models_dom_eq (selection : Selection) (project_models : list Model.t) :
  dom (expand_models selection project_models)
  = if decide (star ∈ dom selection)
    then (dom selection ∖ {[star]}) ∪ list_to_set (Model.name <$> project_models)
    else dom selection.
Proof.
  unfold expand_models. case_decide; [|done].
  by rewrite expand_fold_dom, dom_delete_L.
Qed.

(** X7: when the selection names a model, other than the wildcard, that the
    project does not have, and the project has some model, the build fails
    with the [FonzException] that lists exactly the selected model names,
    other than the wildcard, that the project does not have. *)
Theorem build_project_unknown_models (client : LookerClient) (project : string)
    (selectors : list string) (selection : Selection) (unknown : string) :
  parse_selectors selectors = inr selection →
  filter (λ m, Model.project m = project) (Model.from_json <$> get_models client)
  ≠ [] →
  unknown ∈ dom selection → unknown ≠ star →
  unknown ∉ Model.name <$> filter (λ m, Model.project m = project)
                             (Model.from_json <$> get_models client) →
  ∃ missing : list string,
    NoDup missing
    ∧ (∀ x, x ∈ missing ↔
            x ∈ dom selection ∧ x ≠ star
            ∧ x ∉ Model.name <$> filter (λ m, Model.project m = project)
                                   (Model.from_json <$> get_models client))
    ∧ build_project client project selectors
      = inl (FonzException
               ("Model" +:+
                (if decide (length missing = 1) then EmptyString else "s") +:+
                " " +:+ join ", " missing +:+
                " not found in LookML for project '" +:+ project +:+ "'.")).
Proof.
  intros Hp Hne Hin Hstar Hnot. unfold build_project. rewrite Hp. simpl.
  set (project_models := filter (λ m, Model.project m = project)
                           (Model.from_json <$> get_models client)) in *.
  assert (∀ x, x ∈ elements (dom (expand_models selection project_models))
               ∧ x ∉ name_of <$> project_models
               ↔ x ∈ dom selection ∧ x ≠ star
                 ∧ x ∉ Model.name <$> project_models) as Hdom.
  { intros x. rewrite elem_of_elements, expand_models_dom_eq. simpl.
    case_decide as Hs; [set_solver|].
    split; [|tauto]. intros [Hx Hn]. split; [done|]. split; [|done].
    by intros ->. }
  destruct (select_missing project
              (elements (dom (expand_models selection project_models)))
              project_models unknown Hne)
    as (missing & Hnd & Hmissing & ->).
  - apply Hdom. done.
  - done.
  - exists missing. split; [done|]. split; [|done].
    intros x. by rewrite Hmissing, Hdom.
Qed.

Lemma build_project_unknown_models_witness :
  ∃ missing : list string,
    NoDup missing
    ∧ (∀ x, x ∈ missing ↔
            x ∈ dom ({[ "a" := {[ "x" ]}; "zzz" := {[ "x" ]} ]} : Selection)
            ∧ x ≠ star
            ∧ x ∉ Model.name <$> filter (λ m, Model.project m = "p")
                                   (Model.from_json <$> get_models Sample.client))
    ∧ build_project Sample.client "p" ["zzz.x"; "a.x"]
      = inl (FonzException
               ("Model" +:+
                (if decide (length missing = 1) then EmptyString else "s") +:+
                " " +:+ join ", " missing +:+
                " not found in LookML for project '" +:+ "p" +:+ "'.")).
Proof.
  apply (build_project_unknown_models Sample.client "p" ["zzz.x"; "a.x"]
           {[ "a" := {[ "x" ]}; "zzz" := {[ "x" ]} ]} "zzz").
  - vm_compute. reflexivity.
  - vm_compute. discriminate.
  - rewrite !dom_insert_L. set_solver.
  - discriminate.
  - vm_compute. intros Hin. apply list_elem_of_singleton in Hin. discriminate.
Defined.

(** ** The flag of a validated explore *)

Lemma lookup_explore_write_dimension i j k error (models : list Model.t) e :
  lookup_explore i j models = Some e →
  ∃ e', lookup_explore i j (alter (write_dimension_error j k error) i models)
        = Some e'
        ∧ Explore.errored e' = true.
Proof.
  unfold lookup_explore. rewrite list_lookup_alter_eq.
  destruct (models !! i) as [m|]; simpl; [|done].
  rewrite list_lookup_alter_eq. intros ->. simpl. eauto.
Qed.

Lemma lookup_explore_write_explore i j error (models : list Model.t) e :
  lookup_explore i j models = Some e →
  ∃ e', lookup_explore i j (alter (write_explore_error j error) i models)
        = Some e'
        ∧ Explore.errored e' = true.
Proof.
  unfold lookup_explore. rewrite list_lookup_alter_eq.
  destruct (models !! i) as [m|]; simpl; [|done].
  rewrite list_lookup_alter_eq. intros ->. simpl. eauto.
Qed.

Lemma omap_id_nil {A} (l : list (option A)) :
  omap id l = [] ↔ Forall (λ x, x = None) l.
Proof.
  induction l as [|[a|] l IH]; simpl.
  - split; [constructor|done].
  - split; [done|]. intros H. by apply Forall_cons in H as [? _].
  - rewrite IH. split; [by constructor|]. intros H. by apply Forall_cons in H as [_ ?].
Qed.

Section Flag.
Variable py_str : pyobj → string.
Variable client : LookerClient.

Lemma gather_errored (before : Prop) i j model explore order :
  NoDup order.*1 →
  ∀ results st st' results' e,
    (∀ t u, (t, u) ∈ order → results !! t = Some None) →
    lookup_explore i j (rs_models st) = Some e →
    (Explore.errored e = true ↔ before ∨ omap id results ≠ []) →
    gather py_str client i j model explore order results st = (st', inr results') →
    ∃ e', lookup_explore i j (rs_models st') = Some e'
          ∧ (Explore.errored e' = true ↔ before ∨ omap id results' ≠ []).
Proof.
  induction order as [|[t u] order IH]; intros Hnd results st st' results' e
    Hpending He Hflag.
  - simpl. intros [= <- <-]. eauto.
  - rewrite gather_cons. simpl in Hnd. apply NoDup_cons in Hnd as [Ht Hnd].
    destruct (unit_outcome py_str client model explore u) as [?|res]; [done|].
    assert (results !! t = Some None) as Hslot by (eapply Hpending; left).
    assert (∀ t' u', (t', u') ∈ order → <[t := res]> results !! t' = Some None)
      as Hpending'.
    { intros t' u' Hin. rewrite list_lookup_insert_ne.
      - eapply Hpending. by right.
      - intros ->. apply Ht. apply list_elem_of_fmap. by exists (t', u'). }
    destruct res as [error|]; intros Hg.
    + assert (∃ e', lookup_explore i j
                      (unit_write i j u (inr (Some error)) (rs_models st))
                    = Some e' ∧ Explore.errored e' = true) as (e' & He' & Herr).
      { destruct u; simpl.
        - by eapply lookup_explore_write_explore.
        - by eapply lookup_explore_write_dimension. }
      refine (IH Hnd _ _ _ _ e' Hpending' _ _ Hg); [exact He'|].
      rewrite Herr. split; [|done]. intros _. right.
      rewrite omap_id_nil. intros Hall.
      assert (Some error ∈ <[t := Some error]> results) as Hin.
      { eapply list_elem_of_lookup_2. apply list_lookup_insert_eq.
        by eapply lookup_lt_Some. }
      rewrite Forall_forall in Hall. by specialize (Hall _ Hin).
    + rewrite (list_insert_id _ _ _ Hslot) in Hpending', Hg.
      refine (IH Hnd _ _ _ _ e Hpending' _ Hflag Hg). exact He.
Qed.

End Flag.

(** X15: when the validation of an explore that was not errored is not
    aborted, the explore is errored afterwards exactly when errors are
    returned for it, in either mode and for every order of completion. *)
Theorem explore_errored_iff_errors
    (py_str : pyobj → string) (client : LookerClient) (i j : nat)
    (model : Model.t) (explore explore0 : Explore.t) (batch : pyobj)
    (picks : list nat) (st st' : run_state) (errors : list SqlError.t) :
  lookup_explore i j (rs_models st) = Some explore0 →
  Explore.errored explore0 = false →
  _validate_explore py_str client i j model explore batch picks st
  = (st', inr errors) →
  ∃ explore', lookup_explore i j (rs_models st') = Some explore'
              ∧ (Explore.errored explore' = true ↔ errors ≠ []).
Proof.
  intros He0 Hclean. unfold _validate_explore. rewrite create_tasks_spec.
  destruct (gather _ _ _ _ _ _ _ _ _) as [stg [?|results']] eqn:Hg; [done|].
  intros [= <- <-].
  set (tasks := imap pair (units batch explore)) in *.
  assert (NoDup (completion_order picks tasks).*1) as Hnd
    by (rewrite completion_order_perm; apply tasks_NoDup).
  assert (∀ t u, (t, u) ∈ completion_order picks tasks →
                 replicate (length tasks) (@None SqlError.t) !! t = Some None)
    as Hpending.
  { intros t u Hin. rewrite completion_order_perm in Hin.
    apply elem_of_lookup_imap in Hin as (t0 & u0 & [= -> ->] & Hu).
    apply lookup_replicate. split; [done|].
    unfold tasks. rewrite length_imap. by eapply lookup_lt_Some. }
  assert (Explore.errored explore0 = true
          ↔ False ∨ omap id (replicate (length tasks) (@None SqlError.t)) ≠ [])
    as Hflag0.
  { rewrite Hclean, omap_replicate_None. split; [done|]. by intros [[]|?]. }
  destruct (gather_errored py_str client False i j model explore _ Hnd
              _ {| rs_models := rs_models st;
                   rs_trace := rs_trace st ++ (submit_event i j explore <$> tasks) |}
              _ _ explore0 Hpending He0 Hflag0 Hg) as (e' & He' & Hflag).
  exists e'. split; [done|]. rewrite Hflag. split; [by intros [[]|?]|auto].
Qed.

Lemma explore_errored_iff_errors_witness :
  ∃ st' errors explore',
    _validate_explore Sample.py_str Sample.client 0 0 Sample.model_a
      (Sample.explore "x") (PyBool false) [1]
      {| rs_models := [Sample.model_a]; rs_trace := [] |}
    = (st', inr errors)
    ∧ lookup_explore 0 0 (rs_models st') = Some explore'
    ∧ (Explore.errored explore' = true ↔ errors ≠ []).
Proof.
  destruct (_validate_explore Sample.py_str Sample.client 0 0 Sample.model_a
              (Sample.explore "x") (PyBool false) [1]
              {| rs_models := [Sample.model_a]; rs_trace := [] |})
    as [st' [e|errors]] eqn:Hrun; [by vm_compute in Hrun|].
  destruct (explore_errored_iff_errors Sample.py_str Sample.client 0 0
              Sample.model_a (Sample.explore "x") (Sample.explore "x")
              (PyBool false) [1]
              {| rs_models := [Sample.model_a]; rs_trace := [] |} st' errors
              eq_refl eq_refl Hrun) as (explore' & He & Hiff).
  by exists st', errors, explore'.
Defined.

(** ** A run through the runner *)


